(** * AI_plays_TicTacToe: magic-square win oracle and minimax search

    A shallow embedding of [AI_plays_TicTacToe.py] (the interactive variant
    [AI_plays_TicTacToe_interactive.py] carries the same [magic], [magic_],
    [score_dict], [avail_moves], [check_player_win] and [minimax], line for
    line).

    Conventions.
    - A board is a Python list of one-character strings; the program only
      ever stores ["_"], ["X"] and ["O"] in it, and only ever passes ["X"]
      or ["O"] as a player.  Cells are therefore an enumeration, players
      are marks.
    - Indexing a list out of range raises [IndexError], a missing dict key
      raises [KeyError]; both are kept, in the [outcome] monad.
    - [minimax] is recursive; its embedding is structurally recursive on a
      bound on the call depth, and answers [OutOfFuel] when the bound is
      hit.
    - The board handed to [minimax] is a mutable list.  The value-level
      embedding comes first; the [Store] module repeats [minimax] over a
      store of list objects, with [copy] and item assignment as the source
      has them, and is proved to refine the value-level function. *)

From stdpp Require Import base option list sorting strings gmap.

Open Scope Z_scope.

(** ** Python outcomes *)

Inductive exn := IndexError | KeyError.

Inductive outcome (A : Type) :=
  | Ret (a : A)
  | Raise (e : exn)
  | OutOfFuel.
Arguments Ret {A} a.
Arguments Raise {A} e.
Arguments OutOfFuel {A}.

#[global] Instance outcome_ret : MRet outcome := λ A a, Ret a.
#[global] Instance outcome_bind : MBind outcome := λ A B f m,
  match m with
  | Ret a => f a
  | Raise e => Raise e
  | OutOfFuel => OutOfFuel
  end.

(** [l[i]] for a non-negative [i]. *)
Definition getitem {A} (l : list A) (i : nat) : outcome A :=
  match l !! i with
  | Some x => Ret x
  | None => Raise IndexError
  end.

(** [l[i] = x] on a list value: the updated list, or [IndexError]. *)
Definition setitem {A} (l : list A) (i : nat) (x : A) : outcome (list A) :=
  if bool_decide (i < length l)%nat then Ret (<[i:=x]> l) else Raise IndexError.

(** [d[k]] on a dict. *)
Definition dict_get `{Countable K} {V} (d : gmap K V) (k : K) : outcome V :=
  match d !! k with
  | Some v => Ret v
  | None => Raise KeyError
  end.

(** [[i for i in l if test(i)]] *)
Fixpoint comprehension (test : nat → outcome bool) (l : list nat)
  : outcome (list nat) :=
  match l with
  | [] => Ret []
  | i :: l' =>
      b ← test i;
      r ← comprehension test l';
      Ret (if b : bool then i :: r else r)
  end.

(** [itertools.combinations(l, 2)]: pairs of positions in lexicographic
    order. *)
Fixpoint combinations2 {A} (l : list A) : list (A * A) :=
  match l with
  | [] => []
  | x :: l' => map (pair x) l' ++ combinations2 l'
  end.

(** [list.sort(key=...)] is stable; insertion from the right end keeps an
    element in front of the later elements of equal key. *)
Section sort.
Context {A : Type} (key : A → Z).

Fixpoint insert_by_key (x : A) (l : list A) : list A :=
  match l with
  | [] => [x]
  | y :: l' =>
      if bool_decide (key x ≤ key y) then x :: y :: l'
      else y :: insert_by_key x l'
  end.

Fixpoint sort_by_key (l : list A) : list A :=
  match l with
  | [] => []
  | x :: l' => insert_by_key x (sort_by_key l')
  end.
End sort.

(** ** Data model *)

Inductive mark := X | O.
Inductive cell := Empty | Mark (m : mark).

#[global] Instance mark_eq_dec : EqDecision mark.
Proof. solve_decision. Defined.
#[global] Instance cell_eq_dec : EqDecision cell.
Proof. solve_decision. Defined.

Definition magic : list Z := [8; 3; 4; 1; 5; 9; 6; 7; 2].

Definition magic_ : gmap Z nat :=
  list_to_map
    [(8, 0%nat); (3, 1%nat); (4, 2%nat); (1, 3%nat); (5, 4%nat);
     (9, 5%nat); (6, 6%nat); (7, 7%nat); (2, 8%nat)].

Definition score_dict (player : mark) : Z :=
  match player with
  | X => 1
  | O => -1
  end.

(** A move evaluation, [(index, score)]; the index is [None] in
    [minimax]'s [return None, 0]. *)
Definition evaluation : Type := option nat * Z.

(** ** The win oracle *)

Definition avail_moves (board : list cell) : outcome (list nat) :=
  comprehension (λ i, c ← getitem board i; Ret (bool_decide (c = Empty)))
                (seq 0 9).

(** The [for tuple_ in combinations(player_moves_, 2)] loop of
    [check_player_win]. *)
Fixpoint scan_pairs (avail_magic : list Z) (player : mark)
    (pairs : list (nat * nat)) : outcome (option (nat * Z)) :=
  match pairs with
  | [] => Ret None
  | tuple_ :: rest =>
      m0 ← getitem magic tuple_.1;
      m1 ← getitem magic tuple_.2;
      let surp := 15 - (m0 + m1) in
      if bool_decide (surp ∈ avail_magic) then
        i ← dict_get magic_ surp;
        Ret (Some (i, score_dict player))
      else scan_pairs avail_magic player rest
  end.

Definition check_player_win (board : list cell) (player : mark)
  : outcome (option (nat * Z)) :=
  player_moves_ ←
    comprehension
      (λ i, c ← getitem board i; Ret (bool_decide (c = Mark player)))
      (seq 0 9);
  avail ← avail_moves board;
  avail_magic ← mapM (getitem magic) avail;
  scan_pairs avail_magic player (combinations2 player_moves_).

(** ** The search engine *)

Fixpoint minimax (fuel : nat) (board : list cell) (player opp : mark)
  : outcome evaluation :=
  match fuel with
  | 0%nat => OutOfFuel
  | S fuel' =>
      res ← check_player_win board player;
      match res with
      | Some (i, s) => Ret (Some i, s)
      | None =>
          avail_moves_ ← avail_moves board;
          match avail_moves_ with
          | [] => Ret (None, 0)
          | _ :: _ =>
              scores ←
                mapM (λ i,
                        new_board ← setitem board i (Mark player);
                        r ← minimax fuel' new_board opp player;
                        Ret (Some i, r.2))
                     avail_moves_;
              let sorted := sort_by_key snd scores in
              match player with
              | X => getitem sorted (pred (length sorted))
              | O => getitem sorted 0
              end
          end
      end
  end.

(** ** The shell's human move ([main], the [input] loop and the
    assignment after it)

    [x, y = map(int, tuple(...))] yields the values of two single
    characters, which [int] maps to natural numbers; [move_index = 3*x + y].
    One pass through the loop body either raises [IndexError] on
    [board[move_index]], or reports the spot as taken and asks again, or
    leaves the loop, after which [board[move_index] = "O"] is executed.  The
    board after the pass is returned next to the verdict. *)

Inductive verdict := Accepted | SpotTaken | Crashed (e : exn).

Definition human_move (board : list cell) (x y : nat) : list cell * verdict :=
  let move_index := (3 * x + y)%nat in
  match board !! move_index with
  | None => (board, Crashed IndexError)
  | Some c =>
      if bool_decide (c ≠ Empty) then (board, SpotTaken)
      else (<[move_index := Mark O]> board, Accepted)
  end.


(** [board = ["_" for _ in range(9)]] *)
Definition empty_board : list cell := replicate 9 Empty.

(** ** [minimax] over a store of list objects

    Python passes the board by reference.  Here a board is a location in a
    store of lists, [board.copy()] allocates a fresh location holding the
    current contents of [board], [new_board[i] = player] updates the store
    at that location, and the store is threaded through the recursive
    calls.  [check_player_win] and [avail_moves] only read their argument,
    so they are applied to the contents read from the store. *)
Module Store.

Abbreviation loc := positive (only parsing).
Abbreviation store := (gmap positive (list cell)) (only parsing).

(** The contents of a live object.  Python has no dangling references;
    an absent location is reported as an [IndexError]. *)
Definition read (σ : store) (l : loc) : outcome (list cell) :=
  match σ !! l with
  | Some v => Ret v
  | None => Raise IndexError
  end.

Definition copy (σ : store) (l : loc) : outcome (store * loc) :=
  v ← read σ l;
  let l' := fresh (dom σ) in
  Ret (<[l' := v]> σ, l').

Definition assign (σ : store) (l : loc) (i : nat) (c : cell)
  : outcome store :=
  v ← read σ l;
  v' ← setitem v i c;
  Ret (<[l := v']> σ).

(** [for i in l: ... scores.append(body(i))], threading the store. *)
Fixpoint for_each {B} (body : nat → store → outcome (store * B))
    (l : list nat) (σ : store) : outcome (store * list B) :=
  match l with
  | [] => Ret (σ, [])
  | i :: l' =>
      r ← body i σ;
      rs ← for_each body l' r.1;
      Ret (rs.1, r.2 :: rs.2)
  end.

Fixpoint minimax (fuel : nat) (board : loc) (player opp : mark)
    (σ : store) : outcome (store * evaluation) :=
  match fuel with
  | 0%nat => OutOfFuel
  | S fuel' =>
      b ← read σ board;
      res ← check_player_win b player;
      match res with
      | Some (i, s) => Ret (σ, (Some i, s))
      | None =>
          avail_moves_ ← avail_moves b;
          match avail_moves_ with
          | [] => Ret (σ, (None, 0))
          | _ :: _ =>
              loop ←
                for_each
                  (λ i σ0,
                     cp ← copy σ0 board;
                     σ1 ← assign cp.1 cp.2 i (Mark player);
                     r ← minimax fuel' cp.2 opp player σ1;
                     Ret (r.1, (Some i, r.2.2)))
                  avail_moves_ σ;
              let sorted := sort_by_key snd loop.2 in
              ev ← match player with
                   | X => getitem sorted (pred (length sorted))
                   | O => getitem sorted 0
                   end;
              Ret (loop.1, ev)
          end
      end
  end.

End Store.

(** The store-level outcome that corresponds to a value-level one: the
    same result or failure, in a store that extends the initial one. *)
Definition extends_with {A} (σ : Store.store) (v : outcome A)
    (w : outcome (Store.store * A)) : Prop :=
  match v with
  | Ret a => ∃ σ', w = Ret (σ', a) ∧ σ ⊆ σ'
  | Raise e => w = Raise e
  | OutOfFuel => w = OutOfFuel
  end.

(** ** Notions used to state the properties *)

(** The eight winning lines of the 3 x 3 grid, cell [3 * row + col]. *)
Definition rows : list (list nat) :=
  (λ r, [3 * r; 3 * r + 1; 3 * r + 2]%nat) <$> [0; 1; 2]%nat.
Definition columns : list (list nat) :=
  (λ c, [c; 3 + c; 6 + c]%nat) <$> [0; 1; 2]%nat.
Definition diagonals : list (list nat) :=
  [[0; 4; 8]; [2; 4; 6]]%nat.
Definition winning_lines : list (list nat) := rows ++ columns ++ diagonals.

(** Three cells lie on a common winning line. *)
Definition on_common_line (x y z : nat) : Prop :=
  Exists (λ l, x ∈ l ∧ y ∈ l ∧ z ∈ l) winning_lines.

#[global] Instance on_common_line_dec x y z : Decision (on_common_line x y z).
Proof. unfold on_common_line. apply _. Defined.

(** The magic value of a cell of the board, [magic[i]] for [i] in
    [range(9)]. *)
Definition magic_of (i : nat) : Z := magic !!! i.

(** The sum of the magic values of a list of cells. *)
Definition magic_sum (l : list nat) : option Z :=
  vs ← mapM (λ i, magic !! i) l; Some (foldr Z.add 0 vs).

(** The cells of [board], among the first nine, that hold [c]. *)
Definition cells_with (c : cell) (board : list cell) : list nat :=
  filter (λ i, board !! i = Some c) (seq 0 9).

(** [player] has two marks on a winning line whose third cell is empty. *)
Definition open_line (board : list cell) (player : mark) : Prop :=
  ∃ x y z, x ≠ y ∧ on_common_line x y z ∧
    board !! x = Some (Mark player) ∧ board !! y = Some (Mark player) ∧
    board !! z = Some Empty.

(** The score [minimax] records for the candidate cell [i]: one pass of
    the loop body. *)
Definition child_score (fuel : nat) (board : list cell) (player opp : mark)
    (i : nat) : outcome Z :=
  new_board ← setitem board i (Mark player);
  r ← minimax fuel new_board opp player;
  Ret r.2.
(** ** Three in a row *)

(** [player] holds every cell of some winning line. *)
Definition has_line (board : list cell) (player : mark) : Prop :=
  Exists (λ l, Forall (λ c, board !! c = Some (Mark player)) l) winning_lines.

#[global] Instance has_line_dec board player : Decision (has_line board player).
Proof. unfold has_line. apply _. Defined.

(** Cell [i] is empty and placing [player]'s mark there fills a winning
    line through [i]. *)
Definition completes (board : list cell) (player : mark) (i : nat) : Prop :=
  board !! i = Some Empty ∧
  Exists (λ l, i ∈ l ∧
               Forall (λ c, <[i := Mark player]> board !! c = Some (Mark player)) l)
         winning_lines.

#[global] Instance completes_dec board player i :
  Decision (completes board player i).
Proof. unfold completes. apply _. Defined.

(** ** Winning strategies *)

Definition other (p : mark) : mark :=
  match p with
  | X => O
  | O => X
  end.

(** [forced_win p t b]: on board [b] with [t] to move, [p] can get three in
    a row whatever the other player does.  Either [p] is to move and fills
    a line at once, or [p] is to move and has a move after which the win
    is forced, or the other player is to move, has an empty cell to play,
    cannot fill a line, and every move leaves [p] with a forced win. *)
Inductive forced_win (p : mark) : mark → list cell → Prop :=
  | fw_now b i :
      completes b p i → forced_win p p b
  | fw_move b i :
      b !! i = Some Empty →
      forced_win p (other p) (<[i := Mark p]> b) →
      forced_win p p b
  | fw_reply b :
      (∃ i, b !! i = Some Empty) →
      (∀ i, ¬ completes b (other p) i) →
      (∀ i, b !! i = Some Empty →
            forced_win p p (<[i := Mark (other p)]> b)) →
      forced_win p (other p) b.

(** ** The game loops

    The functions [main] of [AI_plays_TicTacToe.py] and [play_interactive]
    of [AI_plays_TicTacToe_interactive.py].  [main] reads lines with
    [input]: here it is given the list of the lines typed, each line the
    list of its code points, the answer to the opening question first.
    [play_interactive] is given the answer to its question as a boolean
    and the clicks as a list of button indices.  Output ([print],
    [print_board], the widgets) and [sleep] are left out.  A game ends
    with one of the program's messages, with an exception, or waiting for
    a line that the list does not hold. *)

Inductive ending :=
  | AIWins (b : list cell)
  | YouWin (b : list cell)
  | Draw (b : list cell)
  | DrawAfterYourMove (b : list cell)
  | AwaitingInput (b : list cell)
  | Exception (e : exn)
  | ValueError
  | NoneIndex
  | OutOfSteps.

(** The game goes on in state [s], or it is over. *)
Inductive step (S : Type) :=
  | Next (s : S)
  | Stop (e : ending).
Arguments Next {S} s.
Arguments Stop {S} e.

Definition run {A S} (m : outcome A) (k : A → step S) : step S :=
  match m with
  | Ret a => k a
  | Raise e => Stop (Exception e)
  | OutOfFuel => Stop OutOfSteps
  end.

(** The AI's move, the same statements in [main] (the [if player == "X"]
    branch) and in [ai_move].  [minimax] is given a call depth of ten,
    which no board needs more than.  [board[None] = "X"], a [TypeError],
    is the ending [NoneIndex]. *)
Definition ai_turn (board : list cell) : step (list cell) :=
  run (check_player_win board X) (λ res_x,
  run (check_player_win board O) (λ res_o,
  match res_x with
  | Some (move_index, _) =>
      run (setitem board move_index (Mark X)) (λ b, Stop (AIWins b))
  | None =>
      run (match res_o with
           | Some (move_index, _) => Ret (Some move_index)
           | None => r ← minimax 10 board X O; Ret r.1
           end)
          (λ move_index,
             match move_index with
             | Some i => run (setitem board i (Mark X)) Next
             | None => Stop NoneIndex
             end)
  end)).

(** The checks at the end of the loop body of [main], [player] being the
    player after the swap. *)
Definition after_move (board : list cell) (player : mark) : step (list cell) :=
  run (avail_moves board) (λ avail,
  match avail with
  | [] => Stop (Draw board)
  | [i] =>
      match player with
      | O => run (setitem board i (Mark O)) (λ b, Stop (DrawAfterYourMove b))
      | X => Next board
      end
  | _ => Next board
  end).

(** The entries of the human.  [int] is Python's builtin, applied on
    line 121 to strings of one character: [int_ c] is its value on the
    character of code point [c], a natural number since a sign would take
    a second character, or [None] where it raises [ValueError]. *)
Section entries.
Variable int_ : N → option nat.

(** [x, y = map(int, tuple(input_.replace(' ', '').replace(',', '')))]:
    the spaces and the commas are dropped, and the rest has to be two
    characters that [int] accepts; the [ValueError] of [int] and that of
    unpacking fewer or more than two values are [None]. *)
Definition parse_entry (input_ : list N) : option (nat * nat) :=
  match filter (λ c, c ≠ 44%N) (filter (λ c, c ≠ 32%N) input_) with
  | [cx; cy] => x ← int_ cx; y ← int_ cy; Some (x, y)
  | _ => None
  end.

(** The [else] branch of [main]: lines are read until one names an empty
    cell. *)
Fixpoint human_turn (board : list cell) (inputs : list (list N))
  : step (list cell) * list (list N) :=
  match inputs with
  | [] => (Stop (AwaitingInput board), [])
  | input_ :: rest =>
      match parse_entry input_ with
      | None => (Stop ValueError, rest)
      | Some (x, y) =>
          match human_move board x y with
          | (b, Accepted) => (Next b, rest)
          | (_, SpotTaken) => human_turn board rest
          | (_, Crashed e) => (Stop (Exception e), rest)
          end
      end
  end.

Fixpoint main_loop (steps : nat) (board : list cell) (player opp : mark)
    (inputs : list (list N)) : ending :=
  match steps with
  | 0%nat => OutOfSteps
  | S steps' =>
      let turn :=
        match player with
        | X => (ai_turn board, inputs)
        | O => human_turn board inputs
        end in
      match turn.1 with
      | Stop e => e
      | Next b =>
          match after_move b opp with
          | Stop e => e
          | Next b' => main_loop steps' b' opp player turn.2
          end
      end
  end.

(** [main] once the opening question is answered: [answer == 'n'] makes
    the AI the first player. *)
Definition main_from (answer : list N) (inputs : list (list N)) : ending :=
  let players := if bool_decide (answer = [110%N]) then (X, O) else (O, X) in
  main_loop 10 (replicate 9 Empty) players.1 players.2 inputs.

Definition main (lines : list (list N)) : ending :=
  match lines with
  | [] => AwaitingInput (replicate 9 Empty)
  | answer :: inputs => main_from answer inputs
  end.

End entries.

(** [ai_move] of [play_interactive], called with [player] and [opp] as
    they are before its swap. *)
Definition ai_move (board : list cell) (player opp : mark)
  : step (list cell * mark * mark) :=
  match ai_turn board with
  | Stop e => Stop e
  | Next b =>
      let (player, opp) := (opp, player) in
      run (avail_moves b) (λ avail,
      if bool_decide (length avail = 1%nat) then
        run (getitem avail 0) (λ i,
        run (setitem b i (Mark player)) (λ b',
        run (check_player_win b' player) (λ res,
        match res with
        | Some _ => Stop (YouWin b')
        | None => Stop (DrawAfterYourMove b')
        end)))
      else
        match avail with
        | [] => Stop (Draw b)
        | _ :: _ => Next (b, player, opp)
        end)
  end.

(** [handle_click] for the button of index [index]. *)
Definition handle_click (board : list cell) (player opp : mark) (index : nat)
  : step (list cell * mark * mark) :=
  if bool_decide (player ≠ O) then Next (board, player, opp)
  else
    run (getitem board index) (λ c,
    if bool_decide (c ≠ Empty) then Next (board, player, opp)
    else
      run (setitem board index (Mark O)) (λ b,
      let (player, opp) := (opp, player) in
      run (avail_moves b) (λ avail,
      match avail with
      | [] => Stop (Draw b)
      | _ :: _ => ai_move b player opp
      end))).

Fixpoint clicks_loop (board : list cell) (player opp : mark)
    (clicks : list nat) : step (list cell * mark * mark) :=
  match clicks with
  | [] => Next (board, player, opp)
  | index :: rest =>
      match handle_click board player opp index with
      | Next s => clicks_loop s.1.1 s.1.2 s.2 rest
      | Stop e => Stop e
      end
  end.

(** The body of [play_interactive] after the opening question: the AI
    moves at once if it is the first player, then the clicks are served. *)
Definition play_from (board : list cell) (player opp : mark)
    (clicks : list nat) : step (list cell * mark * mark) :=
  match player with
  | X =>
      match ai_move board player opp with
      | Next s => clicks_loop s.1.1 s.1.2 s.2 clicks
      | Stop e => Stop e
      end
  | O => clicks_loop board player opp clicks
  end.

Definition play_interactive (ai_first : bool) (clicks : list nat)
  : step (list cell * mark * mark) :=
  let board := replicate 9 Empty in
  let players := if ai_first then (X, O) else (O, X) in
  play_from board players.1 players.2 clicks.

(** The endings that are in order: the AI wins with three in a row, a
    draw fills the board with no three in a row, and the human never has
    three in a row. *)
Definition sound_ending (e : ending) : Prop :=
  match e with
  | AIWins b => has_line b X ∧ ¬ has_line b O
  | Draw b | DrawAfterYourMove b =>
      (Empty ∉ b) ∧ ¬ has_line b X ∧ ¬ has_line b O
  | AwaitingInput b => ¬ has_line b X ∧ ¬ has_line b O
  | YouWin _ | Exception _ | ValueError | NoneIndex | OutOfSteps => False
  end.

#[global] Instance sound_ending_dec e : Decision (sound_ending e).
Proof. destruct e; simpl; apply _. Defined.

(** The endings of [main] that are in order, given the lines typed after
    the opening answer: those of [sound_ending]; a [ValueError], when some
    line is not an entry; an [IndexError], when some line is an entry that
    names an index of nine or more. *)
Definition main_ending_ok (int_ : N → option nat) (inputs : list (list N))
    (e : ending) : Prop :=
  match e with
  | ValueError => ∃ line, line ∈ inputs ∧ parse_entry int_ line = None
  | Exception e' =>
      e' = IndexError ∧
      ∃ line x y, line ∈ inputs ∧ parse_entry int_ line = Some (x, y) ∧
                  (9 ≤ 3 * x + y)%nat
  | _ => sound_ending e
  end.

(** The code points of a string of ASCII characters, and [int] on the
    ASCII digits, to write lines down. *)
Definition codes (line : string) : list N :=
  Ascii.N_of_ascii <$> String.list_ascii_of_string line.

Definition ascii_digit (c : N) : option nat :=
  if bool_decide (48 ≤ c ≤ 57)%N then Some (N.to_nat (c - 48)) else None.

(** All the games of [main] from a position: the AI's turn as played, the
    human's turn over every empty cell. *)
Fixpoint explore (steps : nat) (board : list cell) (player opp : mark) : bool :=
  match steps with
  | 0%nat => false
  | S steps' =>
      let continue b :=
        match after_move b opp with
        | Stop e => bool_decide (sound_ending e)
        | Next b' => explore steps' b' opp player
        end in
      match player with
      | X =>
          match ai_turn board with
          | Stop e => bool_decide (sound_ending e)
          | Next b => continue b
          end
      | O =>
          bool_decide (length board = 9%nat) &&
          bool_decide (sound_ending (AwaitingInput board)) &&
          forallb (λ j, match board !! j with
                        | Some Empty => continue (<[j := Mark O]> board)
                        | Some (Mark _) => true
                        | None => false
                        end) (seq 0 9)
      end
  end.

(** All the games of [play_interactive] from a state in which a click is
    awaited. *)
Fixpoint explore_clicks (steps : nat) (board : list cell) (player opp : mark)
  : bool :=
  match steps with
  | 0%nat => false
  | S steps' =>
      bool_decide (player = O) &&
      bool_decide (sound_ending (AwaitingInput board)) &&
      forallb (λ j, match board !! j with
                    | Some Empty =>
                        match handle_click board player opp j with
                        | Next s => explore_clicks steps' s.1.1 s.1.2 s.2
                        | Stop e => bool_decide (sound_ending e)
                        end
                    | Some (Mark _) => true
                    | None => false
                    end) (seq 0 9)
  end.

(** Pairs in the order of [itertools.combinations]. *)
Definition pair_before (t u : nat * nat) : Prop :=
  (t.1 < u.1)%nat ∨ (t.1 = u.1 ∧ (t.2 < u.2)%nat).

(** ** [print_board]

    The lines that [print_board] prints.  A cell is one of the strings
    ["_"], ["X"], ["O"]; [l[i:j]] is [slice l i j] for [i ≤ j]. *)




(** * Properties *)

(** ** The outcome monad *)

Lemma bind_Ret {A B} (f : A → outcome B) (m : outcome A) (b : B) :
  m ≫= f = Ret b ↔ ∃ a, m = Ret a ∧ f a = Ret b.
Proof.
  split.
  - destruct m as [a| |]; simpl; [eauto | done | done].
  - by intros (a & -> & ?).
Qed.

Lemma getitem_Ret {A} (l : list A) i x : getitem l i = Ret x ↔ l !! i = Some x.
Proof. unfold getitem. destruct (l !! i); naive_solver. Qed.

Lemma getitem_lt {A} (l : list A) i :
  (i < length l)%nat → ∃ x, l !! i = Some x ∧ getitem l i = Ret x.
Proof.
  intros Hi. destruct (lookup_lt_is_Some_2 l i Hi) as [x Hx].
  exists x. by rewrite getitem_Ret.
Qed.

Lemma getitem_ge {A} (l : list A) i :
  (length l ≤ i)%nat → getitem l i = Raise IndexError.
Proof. intros Hi. unfold getitem. by rewrite lookup_ge_None_2. Qed.

Lemma setitem_Ret {A} (l : list A) i x :
  (i < length l)%nat → setitem l i x = Ret (<[i:=x]> l).
Proof. intros Hi. unfold setitem. by rewrite bool_decide_eq_true_2. Qed.

Section mapM_outcome.
Context {A B : Type} (f : A → outcome B).

Lemma mapM_Ret_2 l k :
  Forall2 (λ x y, f x = Ret y) l k → mapM f l = Ret k.
Proof.
  induction 1 as [|x y l k Hx _ IH]; [done|]. simpl. by rewrite Hx, IH.
Qed.

Lemma mapM_Ret_1 l k :
  mapM f l = Ret k → Forall2 (λ x y, f x = Ret y) l k.
Proof.
  revert k. induction l as [|x l IH]; intros k; simpl.
  - intros [= <-]. constructor.
  - intros (y & Hy & (k' & Hk' & [= <-])%bind_Ret)%bind_Ret.
    constructor; auto.
Qed.

Lemma mapM_Ret_fmap (g : A → B) l :
  Forall (λ x, f x = Ret (g x)) l → mapM f l = Ret (g <$> l).
Proof.
  intros Hl. apply mapM_Ret_2. induction Hl; constructor; auto.
Qed.
End mapM_outcome.

(** ** List comprehensions over the board *)

Lemma comprehension_cells (c0 : cell) (b : list cell) (l : list nat) :
  Forall (λ i, (i < length b)%nat) l →
  comprehension (λ i, c ← getitem b i; Ret (bool_decide (c = c0))) l
  = Ret (filter (λ i, b !! i = Some c0) l).
Proof.
  induction 1 as [|i l Hi _ IH]; [done|].
  destruct (getitem_lt b i Hi) as (c & Hc & Hg).
  simpl. rewrite Hg, IH. simpl. rewrite filter_cons, Hc.
  destruct (decide (c = c0)) as [->|Hne].
  - rewrite bool_decide_eq_true_2 by done. by rewrite decide_True.
  - rewrite bool_decide_eq_false_2 by done. rewrite decide_False; [done|].
    by intros [= ?].
Qed.

Lemma comprehension_short (test : cell → bool) (b : list cell) :
  (length b < 9)%nat →
  comprehension (λ i, c ← getitem b i; Ret (test c)) (seq 0 9)
  = Raise IndexError.
Proof.
  intros Hb.
  do 9 (destruct b as [|? b]; [done|]). simpl in Hb. lia.
Qed.

Lemma seq_below n : Forall (λ i, (i < n)%nat) (seq 0 n).
Proof. apply Forall_forall. intros i [_ ?]%elem_of_seq. lia. Qed.

Lemma avail_moves_Ret (b : list cell) :
  (9 ≤ length b)%nat → avail_moves b = Ret (cells_with Empty b).
Proof.
  intros Hb. apply comprehension_cells.
  eapply Forall_impl; [apply seq_below|]. simpl. lia.
Qed.

Lemma elem_of_cells_with c b i :
  i ∈ cells_with c b ↔ b !! i = Some c ∧ (i < 9)%nat.
Proof.
  unfold cells_with. rewrite list_elem_of_filter, elem_of_seq.
  split; [intros [? [_ ?]] | intros [? ?]]; repeat split; auto with lia.
Qed.

(** ** The magic square *)

Lemma getitem_magic i : (i < 9)%nat → getitem magic i = Ret (magic_of i).
Proof.
  intros Hi. apply getitem_Ret. apply list_lookup_lookup_total_lt. simpl. lia.
Qed.

Lemma magic_round_trip i : (i < 9)%nat → magic_ !! magic_of i = Some i.
Proof.
  intros Hi. do 9 (destruct i as [|i]; [by vm_compute|]). lia.
Qed.

Lemma magic_of_inj i j :
  (i < 9)%nat → (j < 9)%nat → magic_of i = magic_of j → i = j.
Proof.
  intros Hi Hj Heq. apply (inj Some).
  by rewrite <- (magic_round_trip i), <- (magic_round_trip j), Heq.
Qed.

Lemma magic_sum_three x y z :
  (x < 9)%nat → (y < 9)%nat → (z < 9)%nat →
  magic_sum [x; y; z] = Some (magic_of x + magic_of y + magic_of z).
Proof.
  intros Hx Hy Hz. unfold magic_sum. simpl.
  rewrite !(list_lookup_lookup_total_lt magic) by (simpl; lia).
  simpl. f_equal. unfold magic_of. lia.
Qed.

(** Among three pairwise distinct cells, the magic values add up to 15
    exactly on the winning lines; checked over the 9 * 9 * 9 triples. *)
Lemma fifteen_iff_line x y z :
  (x < 9)%nat → (y < 9)%nat → (z < 9)%nat →
  x ≠ y → x ≠ z → y ≠ z →
  magic_of x + magic_of y + magic_of z = 15 ↔ on_common_line x y z.
Proof.
  intros Hx Hy Hz.
  assert (Forall (λ x, Forall (λ y, Forall (λ z,
            x ≠ y → x ≠ z → y ≠ z →
            magic_of x + magic_of y + magic_of z = 15 ↔ on_common_line x y z)
            (seq 0 9)) (seq 0 9)) (seq 0 9)) as Hall.
  { apply (bool_decide_unpack _). by vm_compute. }
  rewrite Forall_forall in Hall.
  specialize (Hall x). rewrite Forall_forall in Hall.
  specialize (Hall ltac:(apply elem_of_seq; lia) y).
  rewrite Forall_forall in Hall.
  apply Hall; apply elem_of_seq; lia.
Qed.

(** ** Pairs of the player's cells *)

Lemma combinations2_elem_of {A} (l : list A) x y :
  (x, y) ∈ combinations2 l → x ∈ l ∧ y ∈ l.
Proof.
  induction l as [|a l IH]; simpl; [by intros ?%elem_of_nil|].
  rewrite elem_of_app, list_elem_of_fmap.
  intros [(y' & [= -> ->] & Hy)|Hin].
  - split; [left | by right].
  - destruct (IH Hin). split; by right.
Qed.

Lemma combinations2_distinct {A} (l : list A) x y :
  NoDup l → (x, y) ∈ combinations2 l → x ≠ y.
Proof.
  induction 1 as [|a l Ha _ IH]; simpl; [by intros ?%elem_of_nil|].
  rewrite elem_of_app, list_elem_of_fmap.
  intros [(y' & [= -> ->] & Hy)|Hin]; [|by apply IH].
  by intros ->.
Qed.

Lemma combinations2_complete {A} (l : list A) x y :
  x ∈ l → y ∈ l → x ≠ y →
  (x, y) ∈ combinations2 l ∨ (y, x) ∈ combinations2 l.
Proof.
  induction l as [|a l IH]; [by intros ?%elem_of_nil|].
  intros Hx Hy Hne. simpl. rewrite !elem_of_app, !list_elem_of_fmap.
  apply elem_of_cons in Hx as [->|Hx]; apply elem_of_cons in Hy as [->|Hy].
  - done.
  - left. left. eauto.
  - right. left. eauto.
  - destruct (IH Hx Hy Hne); [left | right]; by right.
Qed.

Lemma combinations2_short {A} (l : list A) :
  (length l < 2)%nat → combinations2 l = [].
Proof. destruct l as [|? [|? ?]]; simpl; [done | done | lia]. Qed.

Lemma NoDup_cells_with c b : NoDup (cells_with c b).
Proof. apply NoDup_filter, NoDup_seq. Qed.

(** ** The scan of [check_player_win] *)

Section scan.
Context (avail_magic : list Z) (player : mark).

Let hit (t : nat * nat) : Prop :=
  15 - (magic_of t.1 + magic_of t.2) ∈ avail_magic.
Let in_range (t : nat * nat) : Prop := (t.1 < 9)%nat ∧ (t.2 < 9)%nat.

Lemma scan_pairs_cons t rest :
  in_range t →
  scan_pairs avail_magic player (t :: rest) =
    if bool_decide (hit t)
    then i ← dict_get magic_ (15 - (magic_of t.1 + magic_of t.2));
         Ret (Some (i, score_dict player))
    else scan_pairs avail_magic player rest.
Proof. intros [H1 H2]. simpl. by rewrite !getitem_magic. Qed.

Lemma scan_pairs_None pairs :
  Forall in_range pairs → Forall (λ t, ¬ hit t) pairs →
  scan_pairs avail_magic player pairs = Ret None.
Proof.
  induction 1 as [|t rest Ht _ IH]; [done|].
  intros [Hmiss Hrest]%Forall_cons. rewrite scan_pairs_cons by done.
  rewrite bool_decide_eq_false_2 by done. by apply IH.
Qed.

Lemma scan_pairs_Some pairs :
  Forall in_range pairs →
  Forall (λ v, ∃ z, (z < 9)%nat ∧ v = magic_of z) avail_magic →
  Exists hit pairs →
  ∃ t z, t ∈ pairs ∧ hit t ∧ (z < 9)%nat ∧
    magic_of z = 15 - (magic_of t.1 + magic_of t.2) ∧
    scan_pairs avail_magic player pairs = Ret (Some (z, score_dict player)).
Proof.
  intros Hrange Hmagic. induction Hrange as [|t rest Ht _ IH].
  { by intros ?%Exists_nil. }
  intros Hex. rewrite scan_pairs_cons by done.
  destruct (decide (hit t)) as [Hhit|Hmiss].
  - rewrite bool_decide_eq_true_2 by done.
    rewrite Forall_forall in Hmagic.
    destruct (Hmagic _ Hhit) as (z & Hz & Heq).
    exists t, z. repeat split; [left | done | done | done |].
    unfold dict_get. by rewrite Heq, magic_round_trip.
  - rewrite bool_decide_eq_false_2 by done.
    apply Exists_cons in Hex as [?|Hex]; [done|].
    destruct (IH Hex) as (t' & z & ? & ? & ? & ? & ?).
    exists t', z. repeat split; [by right | done..].
Qed.

Lemma scan_pairs_inv pairs i s :
  Forall in_range pairs →
  scan_pairs avail_magic player pairs = Ret (Some (i, s)) →
  ∃ t, t ∈ pairs ∧ hit t ∧
    magic_ !! (15 - (magic_of t.1 + magic_of t.2)) = Some i ∧
    s = score_dict player.
Proof.
  induction 1 as [|t rest Ht _ IH]; [done|].
  rewrite scan_pairs_cons by done. case_bool_decide as Hhit.
  - unfold dict_get. destruct (magic_ !! _) as [i'|] eqn:Hi; [|done].
    simpl. intros [= <- <-]. exists t. repeat split; [left | done..].
  - intros (t' & ? & ?)%IH. exists t'. split; [by right | done].
Qed.
End scan.

(** ** [check_player_win] on a board of nine cells or more *)

Lemma check_player_win_unfold b p :
  (9 ≤ length b)%nat →
  check_player_win b p =
    scan_pairs (magic_of <$> cells_with Empty b) p
               (combinations2 (cells_with (Mark p) b)).
Proof.
  intros Hb. unfold check_player_win.
  rewrite comprehension_cells, avail_moves_Ret by
    (try (eapply Forall_impl; [apply seq_below|]; simpl); lia).
  simpl. rewrite (mapM_Ret_fmap _ magic_of); [done|].
  apply Forall_forall. intros i [_ Hi]%elem_of_cells_with.
  by apply getitem_magic.
Qed.

Lemma check_player_win_short b p :
  (length b < 9)%nat → check_player_win b p = Raise IndexError.
Proof.
  intros Hb. unfold check_player_win.
  by rewrite (comprehension_short (λ c, bool_decide (c = Mark p))).
Qed.

Lemma pairs_in_range c b :
  Forall (λ t : nat * nat, (t.1 < 9)%nat ∧ (t.2 < 9)%nat)
         (combinations2 (cells_with c b)).
Proof.
  apply Forall_forall. intros [x y] [Hx Hy]%combinations2_elem_of.
  apply elem_of_cells_with in Hx, Hy. simpl. tauto.
Qed.

Lemma avail_magic_values b :
  Forall (λ v, ∃ z, (z < 9)%nat ∧ v = magic_of z)
         (magic_of <$> cells_with Empty b).
Proof.
  apply Forall_fmap, Forall_forall. intros z [_ Hz]%elem_of_cells_with.
  simpl. eauto.
Qed.

(** A hit of the scan is an open line, and conversely. *)
Lemma hit_open_line b p x y :
  b !! x = Some (Mark p) → b !! y = Some (Mark p) → x ≠ y →
  (x < 9)%nat → (y < 9)%nat →
  15 - (magic_of x + magic_of y) ∈ magic_of <$> cells_with Empty b →
  ∃ z, b !! z = Some Empty ∧ (z < 9)%nat ∧ on_common_line x y z ∧
       magic_of z = 15 - (magic_of x + magic_of y).
Proof.
  intros Hx Hy Hne Hx9 Hy9 (z & Hz & [Hbz Hz9]%elem_of_cells_with)%list_elem_of_fmap.
  exists z. repeat split; [done | done | | done].
  apply fifteen_iff_line; [done | done | done | done | | | lia];
    intros ->; congruence.
Qed.

Lemma open_line_hit b p x y z :
  b !! x = Some (Mark p) → b !! y = Some (Mark p) → b !! z = Some Empty →
  (x < 9)%nat → (y < 9)%nat → (z < 9)%nat →
  x ≠ y → on_common_line x y z →
  15 - (magic_of x + magic_of y) ∈ magic_of <$> cells_with Empty b.
Proof.
  intros Hx Hy Hz Hx9 Hy9 Hz9 Hne Hline.
  apply list_elem_of_fmap. exists z. split; [|by apply elem_of_cells_with].
  assert (x ≠ z) by (intros ->; congruence).
  assert (y ≠ z) by (intros ->; congruence).
  apply fifteen_iff_line in Hline; [lia | done..].
Qed.

Lemma on_common_line_lt x y z :
  on_common_line x y z → (x < 9)%nat ∧ (y < 9)%nat ∧ (z < 9)%nat.
Proof.
  unfold on_common_line. rewrite Exists_exists.
  intros (l & Hl & Hx & Hy & Hz).
  assert (Forall (Forall (λ i, (i < 9)%nat)) winning_lines) as Hall.
  { apply (bool_decide_unpack _). by vm_compute. }
  rewrite Forall_forall in Hall. specialize (Hall l Hl).
  rewrite Forall_forall in Hall. auto.
Qed.

Lemma check_player_win_open_line b p i s :
  check_player_win b p = Ret (Some (i, s)) →
  open_line b p ∧ b !! i = Some Empty ∧ (i < 9)%nat ∧ s = score_dict p.
Proof.
  destruct (decide (length b < 9)%nat) as [Hb|Hb].
  { by rewrite check_player_win_short. }
  rewrite check_player_win_unfold by lia.
  intros ([x y] & Hin & Hhit & Hi & ->)%scan_pairs_inv;
    [|apply pairs_in_range]. simpl in *.
  pose proof (combinations2_distinct _ _ _ (NoDup_cells_with _ _) Hin) as Hne.
  apply combinations2_elem_of in Hin as [Hx Hy].
  apply elem_of_cells_with in Hx as [Hx Hx9], Hy as [Hy Hy9].
  destruct (hit_open_line b p x y) as (z & Hz & Hz9 & Hline & Heq); try done.
  rewrite <- Heq, magic_round_trip in Hi by done. injection Hi as <-.
  repeat split; [|done..]. by exists x, y, z.
Qed.

Lemma open_line_check_player_win b p :
  length b = 9%nat → open_line b p →
  ∃ i, check_player_win b p = Ret (Some (i, score_dict p)).
Proof.
  intros Hb (x & y & z & Hne & Hline & Hx & Hy & Hz).
  destruct (on_common_line_lt _ _ _ Hline) as (Hx9 & Hy9 & Hz9).
  rewrite check_player_win_unfold by lia.
  destruct (scan_pairs_Some (magic_of <$> cells_with Empty b) p
              (combinations2 (cells_with (Mark p) b)))
    as (t & i & _ & _ & _ & _ & Hscan);
    [apply pairs_in_range | apply avail_magic_values | | by exists i].
  apply Exists_exists.
  destruct (combinations2_complete (cells_with (Mark p) b) x y) as [Hin|Hin];
    [by apply elem_of_cells_with.. | done | |].
  - exists (x, y). split; [done|]. simpl. by eapply open_line_hit.
  - exists (y, x). split; [done|]. simpl.
    replace (magic_of y + magic_of x) with (magic_of x + magic_of y) by lia.
    by eapply open_line_hit.
Qed.

Lemma check_player_win_total b p :
  (9 ≤ length b)%nat → ∃ r, check_player_win b p = Ret r.
Proof.
  intros Hb. rewrite check_player_win_unfold by done.
  set (am := magic_of <$> cells_with Empty b).
  set (pairs := combinations2 (cells_with (Mark p) b)).
  destruct (decide (Exists (λ t : nat * nat,
              15 - (magic_of t.1 + magic_of t.2) ∈ am) pairs)) as [Hex|Hno].
  - destruct (scan_pairs_Some am p pairs) as (t & i & _ & _ & _ & _ & Hscan);
      [apply pairs_in_range | apply avail_magic_values | done | eauto].
  - exists None. apply scan_pairs_None; [apply pairs_in_range|].
    by apply not_Exists_Forall; [intros ?; apply _|].
Qed.

(** ** The board encoder *)

(** C6.  The winning lines are the three rows, the three columns and the
    two diagonals; the magic values on each of them add up to 15; and
    three cells with pairwise distinct magic values adding up to 15 always
    lie on a common winning line. *)
Theorem magic_lines_sum_to_15 :
  length rows = 3%nat ∧ length columns = 3%nat ∧ length diagonals = 2%nat ∧
  Forall (λ l, magic_sum l = Some 15) winning_lines ∧
  ∀ x y z vx vy vz,
    magic !! x = Some vx → magic !! y = Some vy → magic !! z = Some vz →
    vx ≠ vy → vx ≠ vz → vy ≠ vz → vx + vy + vz = 15 →
    on_common_line x y z.
Proof.
  split; [done|]. split; [done|]. split; [done|]. split.
  { apply (bool_decide_unpack _). by vm_compute. }
  intros x y z vx vy vz Hx Hy Hz Hxy Hxz Hyz Hsum.
  pose proof (lookup_lt_Some _ _ _ Hx) as Hx9.
  pose proof (lookup_lt_Some _ _ _ Hy) as Hy9.
  pose proof (lookup_lt_Some _ _ _ Hz) as Hz9.
  simpl in Hx9, Hy9, Hz9.
  apply list_lookup_total_correct in Hx, Hy, Hz.
  fold (magic_of x) in Hx. fold (magic_of y) in Hy. fold (magic_of z) in Hz.
  subst vx vy vz.
  apply fifteen_iff_line; [done | done | done | | | | done]; by intros ->.
Qed.

Lemma magic_lines_sum_to_15_witness :
  magic !! 2%nat = Some 4 ∧ magic !! 4%nat = Some 5 ∧ magic !! 6%nat = Some 6 ∧
  on_common_line 2 4 6.
Proof.
  repeat split.
  apply (proj2 (proj2 (proj2 (proj2 magic_lines_sum_to_15)))
           2%nat 4%nat 6%nat 4 5 6);
    reflexivity || lia.
Defined.

(** C9.  For every index [i] of the board, [magic_[magic[i]]] is [i]. *)
Theorem magic_inverse_round_trip (i : nat) :
  (i < 9)%nat → (v ← getitem magic i; dict_get magic_ v) = Ret i.
Proof.
  intros Hi. rewrite getitem_magic by done. simpl.
  unfold dict_get. by rewrite magic_round_trip.
Qed.

Lemma magic_inverse_round_trip_witness :
  (v ← getitem magic 5; dict_get magic_ v) = Ret 5%nat.
Proof. apply (magic_inverse_round_trip 5). lia. Defined.

(** ** The win oracle *)

(** C3.  On a board of nine cells, [check_player_win] returns a result
    exactly when the player has two marks on a common winning line whose
    third cell is empty, and returns [None] otherwise; in particular it
    returns [None] when the player has fewer than two marks. *)
Theorem check_player_win_iff_open_line (b : list cell) (p : mark) :
  length b = 9%nat →
  ((∃ r, check_player_win b p = Ret (Some r)) ↔ open_line b p) ∧
  (check_player_win b p = Ret None ↔ ¬ open_line b p) ∧
  ((length (cells_with (Mark p) b) < 2)%nat → check_player_win b p = Ret None).
Proof.
  intros Hb.
  assert ((∃ r, check_player_win b p = Ret (Some r)) ↔ open_line b p) as Hiff.
  { split.
    - intros [[i s] Hr]. by apply check_player_win_open_line in Hr as [? _].
    - intros Hopen. destruct (open_line_check_player_win b p Hb Hopen); eauto. }
  split; [done|]. split; [split|].
  - intros Hnone Hopen. apply Hiff in Hopen as [r Hr]. congruence.
  - intros Hclosed.
    destruct (check_player_win_total b p) as [[r|] Hr]; [lia | | done].
    destruct Hclosed. apply Hiff. eauto.
  - intros Hfew. rewrite check_player_win_unfold by lia.
    by rewrite combinations2_short.
Qed.

Lemma check_player_win_iff_open_line_witness :
  let b := [Mark X; Mark X; Empty; Mark O; Mark O; Empty; Empty; Empty; Empty] in
  ((∃ r, check_player_win b X = Ret (Some r)) ↔ open_line b X) ∧
  check_player_win b X = Ret (Some (2%nat, 1)).
Proof.
  split; [|reflexivity].
  apply (check_player_win_iff_open_line
           [Mark X; Mark X; Empty; Mark O; Mark O; Empty; Empty; Empty; Empty] X).
  reflexivity.
Defined.

(** C10.  Whenever [check_player_win] returns [(index, score)], the cell
    at [index] is empty, so that the player's mark can be placed there,
    and the score is [+1] for ["X"] and [-1] for ["O"]. *)
Theorem check_player_win_returns_empty_cell (b : list cell) (p : mark) i s :
  check_player_win b p = Ret (Some (i, s)) →
  b !! i = Some Empty ∧
  setitem b i (Mark p) = Ret (<[i := Mark p]> b) ∧
  s = match p with X => 1 | O => -1 end.
Proof.
  intros (_ & Hi & Hi9 & ->)%check_player_win_open_line.
  split; [done|]. split; [|by destruct p].
  apply setitem_Ret. by eapply lookup_lt_Some.
Qed.

Lemma check_player_win_returns_empty_cell_witness :
  let b := [Mark X; Mark X; Empty; Mark O; Mark O; Empty; Empty; Empty; Empty] in
  b !! 5%nat = Some Empty ∧
  setitem b 5 (Mark O) = Ret (<[5%nat := Mark O]> b) ∧ -1 = -1.
Proof.
  apply (check_player_win_returns_empty_cell
           [Mark X; Mark X; Empty; Mark O; Mark O; Empty; Empty; Empty; Empty]
           O 5 (-1)).
  reflexivity.
Defined.

(** ** The stable sort *)

Section sort_facts.
Context {A : Type} (key : A → Z).
Implicit Types (x y : A) (l s : list A).

Lemma insert_by_key_perm x s : insert_by_key key x s ≡ₚ x :: s.
Proof.
  induction s as [|y s IH]; simpl; [done|].
  case_bool_decide; [done|]. rewrite IH. apply Permutation_swap.
Qed.

Lemma sort_by_key_perm l : sort_by_key key l ≡ₚ l.
Proof.
  induction l as [|x l IH]; simpl; [done|].
  by rewrite insert_by_key_perm, IH.
Qed.

Lemma length_sort_by_key l : length (sort_by_key key l) = length l.
Proof. by rewrite sort_by_key_perm. Qed.

Lemma insert_by_key_sorted x s :
  StronglySorted (λ y z, key y ≤ key z) s →
  StronglySorted (λ y z, key y ≤ key z) (insert_by_key key x s).
Proof.
  induction 1 as [|y s Hs IH Hy]; simpl.
  { repeat constructor. }
  case_bool_decide as Hxy.
  - constructor; [by constructor|].
    constructor; [done|]. eapply Forall_impl; [done|]. simpl. lia.
  - constructor; [done|]. rewrite insert_by_key_perm.
    constructor; [lia | done].
Qed.

Lemma sort_by_key_sorted l :
  StronglySorted (λ y z, key y ≤ key z) (sort_by_key key l).
Proof.
  induction l; simpl; [constructor | by apply insert_by_key_sorted].
Qed.

(** Stability: elements of equal key keep their order. *)
Lemma insert_by_key_stable k x s :
  filter (λ y, key y = k) (insert_by_key key x s)
  = filter (λ y, key y = k) (x :: s).
Proof.
  induction s as [|y s IH]; simpl; [done|].
  case_bool_decide as Hxy; [done|].
  rewrite (filter_cons _ y), IH, !filter_cons.
  repeat case_decide; done || lia.
Qed.

Lemma sort_by_key_stable k l :
  filter (λ y, key y = k) (sort_by_key key l) = filter (λ y, key y = k) l.
Proof.
  induction l as [|x l IH]; simpl; [done|].
  by rewrite insert_by_key_stable, !filter_cons, IH.
Qed.

(** What [scores[0]] and [scores[-1]] are after the sort. *)
Lemma head_insert_by_key x s :
  head (insert_by_key key x s)
  = Some (match head s with
          | Some y => if bool_decide (key x ≤ key y) then x else y
          | None => x
          end).
Proof. destruct s as [|y s]; simpl; [done|]. by case_bool_decide. Qed.

Lemma head_sort_by_key l x :
  head (sort_by_key key l) = Some x →
  ∃ l1 l2, l = l1 ++ x :: l2 ∧
    Forall (λ y, key x < key y) l1 ∧ Forall (λ y, key x ≤ key y) l2.
Proof.
  revert x. induction l as [|a l IH]; intros x; simpl; [done|].
  rewrite head_insert_by_key.
  destruct (head (sort_by_key key l)) as [y|] eqn:Hhead.
  - destruct (IH y eq_refl) as (l1 & l2 & -> & H1 & H2).
    case_bool_decide as Hay; intros [= <-].
    + exists [], (l1 ++ y :: l2). split; [done|]. split; [constructor|].
      apply Forall_app. split; [|constructor].
      * eapply Forall_impl; [done|]. simpl. lia.
      * done.
      * eapply Forall_impl; [done|]. simpl. lia.
    + exists (a :: l1), l2. split; [done|]. split; [|done].
      constructor; [lia | done].
  - intros [= <-]. apply head_None in Hhead.
    apply (f_equal length) in Hhead. rewrite length_sort_by_key in Hhead.
    destruct l; [|done]. exists [], []. repeat constructor.
Qed.

Lemma insert_by_key_last_le x y s :
  last s = Some y → key x ≤ key y → last (insert_by_key key x s) = Some y.
Proof.
  induction s as [|z s IH]; [done|]. simpl insert_by_key.
  intros Hlast Hxy. case_bool_decide as Hxz.
  - by rewrite last_cons_cons.
  - destruct s as [|z' s].
    + simpl in Hlast. injection Hlast as ->. lia.
    + rewrite last_cons_cons in Hlast. specialize (IH Hlast Hxy).
      rewrite last_cons, IH. done.
Qed.

Lemma insert_by_key_all_lt x s :
  Forall (λ y, key y < key x) s → insert_by_key key x s = s ++ [x].
Proof.
  induction 1 as [|y s Hy _ IH]; simpl; [done|].
  rewrite bool_decide_eq_false_2 by lia. by rewrite IH.
Qed.

Lemma last_sort_by_key l x :
  last (sort_by_key key l) = Some x →
  ∃ l1 l2, l = l1 ++ x :: l2 ∧
    Forall (λ y, key y ≤ key x) l1 ∧ Forall (λ y, key y < key x) l2.
Proof.
  revert x. induction l as [|a l IH]; intros x; simpl; [done|].
  destruct (last (sort_by_key key l)) as [y|] eqn:Hlast.
  - destruct (IH y eq_refl) as (l1 & l2 & Hl & H1 & H2).
    destruct (decide (key a ≤ key y)) as [Hay|Hay].
    + rewrite (insert_by_key_last_le a y) by done. intros [= <-].
      exists (a :: l1), l2. rewrite Hl. split; [done|]. split; [|done].
      by constructor.
    + assert (Forall (λ z, key z < key a) l) as Hlt.
      { rewrite Hl. apply Forall_app. split; [|constructor].
        - eapply Forall_impl; [done|]. simpl. lia.
        - lia.
        - eapply Forall_impl; [done|]. simpl. lia. }
      rewrite insert_by_key_all_lt, last_snoc
        by by rewrite sort_by_key_perm.
      intros [= <-]. by exists [], l.
  - apply last_None in Hlast. rewrite Hlast. simpl. intros [= <-].
    apply (f_equal length) in Hlast. rewrite length_sort_by_key in Hlast.
    destruct l; [|done]. exists [], []. repeat constructor.
Qed.
End sort_facts.

(** ** Empty cells *)

Lemma StronglySorted_lt_seq j n : StronglySorted lt (seq j n).
Proof.
  revert j. induction n as [|n IH]; intros j; simpl; constructor; [done|].
  apply Forall_forall. intros i [? _]%elem_of_seq. lia.
Qed.

Lemma StronglySorted_filter {A} (R : relation A) (P : A → Prop)
    `{∀ x, Decision (P x)} l :
  StronglySorted R l → StronglySorted R (filter P l).
Proof.
  induction 1 as [|x l _ IH Hx]; [constructor|].
  rewrite filter_cons. case_decide; [|done].
  constructor; [done|]. rewrite Forall_forall in Hx |- *.
  intros y [_ Hy]%list_elem_of_filter. auto.
Qed.

Lemma cells_with_sorted c b : StronglySorted lt (cells_with c b).
Proof. apply StronglySorted_filter, StronglySorted_lt_seq. Qed.

Lemma length_cells_with c b : (length (cells_with c b) ≤ 9)%nat.
Proof. unfold cells_with. by rewrite length_filter, length_seq. Qed.

Lemma cells_with_Empty_insert b i p :
  cells_with Empty (<[i := Mark p]> b)
  = filter (λ j, j ≠ i) (cells_with Empty b).
Proof.
  unfold cells_with. rewrite list_filter_filter. apply list_filter_iff.
  intros j. destruct (decide (j = i)) as [->|Hne].
  - split; [|tauto]. intros Hi.
    pose proof (lookup_lt_Some _ _ _ Hi) as Hlt. rewrite length_insert in Hlt.
    by rewrite list_lookup_insert_eq in Hi.
  - rewrite list_lookup_insert_ne by done. tauto.
Qed.

Lemma fewer_empty_cells b i p :
  i ∈ cells_with Empty b →
  (length (cells_with Empty (<[i := Mark p]> b)) < length (cells_with Empty b))%nat.
Proof.
  intros Hi. rewrite cells_with_Empty_insert.
  apply (length_filter_lt _ _ i); [done | tauto].
Qed.

(** ** One pass of the loop of [minimax] *)

Lemma loop_body_child_score fuel b p o i ev :
  (new_board ← setitem b i (Mark p);
   r ← minimax fuel new_board o p;
   Ret (Some i, r.2)) = Ret ev
  ↔ ∃ s, ev = (Some i, s) ∧ child_score fuel b p o i = Ret s.
Proof.
  unfold child_score.
  destruct (setitem b i (Mark p)) as [nb| |]; simpl;
    [|split; [done | by intros (? & _ & ?)]..].
  destruct (minimax fuel nb o p) as [r| |]; simpl;
    [|split; [done | by intros (? & _ & ?)]..].
  split; [intros [= <-]; eauto | by intros (s & -> & [= ->])].
Qed.

Lemma mapM_total {A B} (f : A → outcome B) l :
  (∀ x, x ∈ l → ∃ y, f x = Ret y) → ∃ k, mapM f l = Ret k.
Proof.
  induction l as [|x l IH]; intros Hl; [by exists []|].
  destruct (Hl x) as [y Hy]; [left|].
  destruct IH as [k Hk]; [intros; apply Hl; by right|].
  exists (y :: k). simpl. by rewrite Hy, Hk.
Qed.

(** ** Termination *)

Lemma minimax_short fuel b p o :
  (length b < 9)%nat → minimax (S fuel) b p o = Raise IndexError.
Proof. intros Hb. simpl. by rewrite check_player_win_short. Qed.

Lemma minimax_enough_fuel fuel b p o :
  (9 ≤ length b)%nat → (length (cells_with Empty b) < fuel)%nat →
  ∃ r, minimax fuel b p o = Ret r.
Proof.
  revert b p o. induction fuel as [|fuel IH]; intros b p o Hb Hfuel; [lia|].
  simpl. destruct (check_player_win_total b p Hb) as [res ->]. simpl.
  destruct res as [[i s]|]; [eauto|].
  rewrite avail_moves_Ret by done. simpl.
  destruct (cells_with Empty b) as [|a av] eqn:Hav; [eauto|].
  rewrite <- Hav.
  destruct (mapM_total
    (λ i, new_board ← setitem b i (Mark p);
          r ← minimax fuel new_board o p; Ret (Some i, r.2))
    (cells_with Empty b)) as [scores Hscores].
  { intros i Hi. pose proof (fewer_empty_cells b i p Hi) as Hlt.
    apply elem_of_cells_with in Hi as [Hi Hi9].
    rewrite setitem_Ret by lia. simpl.
    rewrite Hav in Hlt.
    destruct (IH (<[i := Mark p]> b) o p) as [r ->];
      [by rewrite length_insert | lia | simpl; eauto]. }
  rewrite Hscores. simpl.
  apply mapM_Ret_1, Forall2_length in Hscores.
  assert (0 < length (sort_by_key snd scores))%nat as Hpos.
  { rewrite length_sort_by_key, <- Hscores, Hav. simpl. lia. }
  destruct p.
  - destruct (getitem_lt (sort_by_key snd scores)
                (pred (length (sort_by_key snd scores)))) as (x & _ & ->);
      [lia | eauto].
  - destruct (getitem_lt (sort_by_key snd scores) 0) as (x & _ & ->);
      [lia | eauto].
Qed.

(** More fuel never changes a result. *)
Lemma minimax_fuel_mono n m b p o r :
  (n ≤ m)%nat → minimax n b p o = Ret r → minimax m b p o = Ret r.
Proof.
  revert m b p o r. induction n as [|n IH]; intros m b p o r Hnm; [done|].
  destruct m as [|m]; [lia|]. cbn [minimax].
  destruct (check_player_win b p) as [[[i s]|]| |];
    cbn [mbind outcome_bind]; [done | | done..].
  destruct (avail_moves b) as [[|a av]| |];
    cbn [mbind outcome_bind]; [done | | done..].
  intros (scores & Hscores & Hsel)%bind_Ret.
  apply bind_Ret. exists scores. split; [|done].
  apply mapM_Ret_2. apply mapM_Ret_1 in Hscores.
  eapply Forall2_impl; [done|]. cbn beta. intros i ev.
  intros (nb & -> & (r' & Hr' & Hev)%bind_Ret)%bind_Ret.
  cbn [mbind outcome_bind].
  by rewrite (IH m nb o p r') by (done || lia).
Qed.

(** ** The search engine *)

(** C8.  [minimax] terminates on every board: a board has at most nine
    empty cells, every recursive call is on a board with strictly fewer
    empty cells, and a call depth of one more than the number of empty
    cells is never exceeded; on a board of nine cells the call returns a
    result. *)
Theorem minimax_terminates (b : list cell) (p o : mark) (fuel : nat) :
  (length (cells_with Empty b) < fuel)%nat →
  (length (cells_with Empty b) ≤ 9)%nat ∧
  (∀ av i new_board,
     avail_moves b = Ret av → i ∈ av →
     setitem b i (Mark p) = Ret new_board →
     (length (cells_with Empty new_board) < length (cells_with Empty b))%nat) ∧
  minimax fuel b p o ≠ OutOfFuel ∧
  (length b = 9%nat → ∃ r, minimax fuel b p o = Ret r).
Proof.
  intros Hfuel. split; [apply length_cells_with|]. split; [|split].
  - intros av i nb Hav Hi Hset.
    destruct (decide (length b < 9)%nat) as [Hb|Hb].
    { unfold avail_moves in Hav.
      by rewrite (comprehension_short (λ c, bool_decide (c = Empty))) in Hav. }
    rewrite avail_moves_Ret in Hav by lia. injection Hav as <-.
    pose proof Hi as [Hi' Hi9]%elem_of_cells_with.
    rewrite setitem_Ret in Hset by (by eapply lookup_lt_Some).
    injection Hset as <-. by apply fewer_empty_cells.
  - destruct (decide (length b < 9)%nat) as [Hb|Hb].
    + destruct fuel as [|fuel]; [lia|]. by rewrite minimax_short.
    + destruct (minimax_enough_fuel fuel b p o) as [r ->]; [lia | done | done].
  - intros Hb. apply minimax_enough_fuel; [lia | done].
Qed.

Lemma minimax_terminates_witness :
  minimax 10 empty_board X O ≠ OutOfFuel ∧
  ∃ r, minimax 10 empty_board X O = Ret r.
Proof.
  destruct (minimax_terminates empty_board X O 10) as (_ & _ & Hstop & Hret).
  - vm_compute. lia.
  - split; [exact Hstop | apply Hret; reflexivity].
Defined.

(** C4.  On the empty board with ["X"] to move, [minimax] returns score 0,
    whatever bound of at least ten calls is put on the depth. *)
Theorem minimax_empty_board_score (fuel : nat) :
  (10 ≤ fuel)%nat →
  ∃ move, minimax fuel empty_board X O = Ret (move, 0).
Proof.
  intros Hfuel. exists (Some 8%nat).
  apply (minimax_fuel_mono 10); [done|]. by vm_compute.
Qed.

Lemma minimax_empty_board_score_witness :
  ∃ move, minimax 10 empty_board X O = Ret (move, 0).
Proof. apply (minimax_empty_board_score 10). lia. Defined.

(** C5.  On a board of nine cells none of which is empty,
    [check_player_win] reports no winning move and [minimax] returns
    [(None, 0)]. *)
Theorem minimax_full_board (b : list cell) (p o : mark) (fuel : nat) :
  length b = 9%nat → Empty ∉ b →
  check_player_win b p = Ret None ∧ minimax (S fuel) b p o = Ret (None, 0).
Proof.
  intros Hb Hfull.
  assert (cells_with Empty b = []) as Hav.
  { apply elem_of_nil_inv. intros i [Hi _]%elem_of_cells_with.
    apply Hfull. by eapply list_elem_of_lookup_2. }
  assert (check_player_win b p = Ret None) as Hwin.
  { rewrite check_player_win_unfold, Hav by lia.
    apply scan_pairs_None; [apply pairs_in_range|].
    apply Forall_forall. intros t _. apply not_elem_of_nil. }
  split; [done|]. cbn [minimax]. rewrite Hwin. cbn [mbind outcome_bind].
  by rewrite avail_moves_Ret, Hav by lia.
Qed.

Lemma minimax_full_board_witness :
  let b := [Mark X; Mark O; Mark X; Mark X; Mark O; Mark O; Mark O; Mark X; Mark X] in
  check_player_win b O = Ret None ∧ minimax 1 b O X = Ret (None, 0).
Proof.
  apply (minimax_full_board
    [Mark X; Mark O; Mark X; Mark X; Mark O; Mark O; Mark O; Mark X; Mark X]
    O X 0).
  - reflexivity.
  - by apply (bool_decide_unpack _).
Defined.

(** ** The selection among the candidate cells *)

Lemma child_score_total fuel b p o i :
  (9 ≤ length b)%nat → i ∈ cells_with Empty b →
  (length (cells_with Empty b) ≤ fuel)%nat →
  ∃ s, child_score fuel b p o i = Ret s.
Proof.
  intros Hb Hi Hfuel. pose proof (fewer_empty_cells b i p Hi) as Hlt.
  apply elem_of_cells_with in Hi as [Hi Hi9]. unfold child_score.
  rewrite setitem_Ret by lia. cbn [mbind outcome_bind].
  destruct (minimax_enough_fuel fuel (<[i := Mark p]> b) o p) as [r ->];
    [by rewrite length_insert | lia | simpl; eauto].
Qed.

Lemma Forall2_elem_of_l {A B} (P : A → B → Prop) l k x :
  Forall2 P l k → x ∈ l → ∃ y, y ∈ k ∧ P x y.
Proof.
  intros HP (n & Hn)%list_elem_of_lookup.
  destruct (Forall2_lookup_l _ _ _ _ _ HP Hn) as (y & Hy & Hxy).
  exists y. split; [by eapply list_elem_of_lookup_2 | done].
Qed.

(** The scores recorded by the loop, cell by cell. *)
Lemma minimax_scores fuel b p o :
  (9 ≤ length b)%nat → (length (cells_with Empty b) ≤ fuel)%nat →
  ∃ scores,
    mapM (λ i, new_board ← setitem b i (Mark p);
               r ← minimax fuel new_board o p;
               Ret (Some i, r.2))
         (cells_with Empty b) = Ret scores ∧
    Forall2 (λ i ev, ∃ s, ev = (Some i, s) ∧ child_score fuel b p o i = Ret s)
            (cells_with Empty b) scores.
Proof.
  intros Hb Hfuel.
  destruct (mapM_total
    (λ i, new_board ← setitem b i (Mark p);
          r ← minimax fuel new_board o p; Ret (Some i, r.2))
    (cells_with Empty b)) as [scores Hscores].
  { intros i Hi.
    destruct (child_score_total fuel b p o i Hb Hi Hfuel) as [s Hs].
    exists (Some i, s). apply loop_body_child_score. eauto. }
  exists scores. split; [done|].
  apply mapM_Ret_1 in Hscores. eapply Forall2_impl; [done|].
  intros i ev. apply loop_body_child_score.
Qed.

Section selection.
Context (fuel : nat) (b : list cell) (p o : mark).
Context (scores l1 l2 : list evaluation) (x : evaluation).
Hypothesis Hsplit : scores = l1 ++ x :: l2.
Hypothesis Hscores :
  Forall2 (λ i ev, ∃ s, ev = (Some i, s) ∧ child_score fuel b p o i = Ret s)
          (cells_with Empty b) scores.

(** The entry [x] of [scores] belongs to a cell [i]; the entries before
    it belong to lower cells, the entries after it to higher cells. *)
Lemma selection_split :
  ∃ i, x = (Some i, x.2) ∧ b !! i = Some Empty ∧
       child_score fuel b p o i = Ret x.2 ∧
    ∀ j sj, b !! j = Some Empty → (j < 9)%nat →
      child_score fuel b p o j = Ret sj →
      ((j < i)%nat ∧ (Some j, sj) ∈ l1) ∨ (j = i ∧ sj = x.2) ∨
      ((i < j)%nat ∧ (Some j, sj) ∈ l2).
Proof.
  rewrite Hsplit in Hscores.
  apply Forall2_app_inv_r in Hscores as (a1 & a2' & H1 & H2 & Hav).
  apply Forall2_cons_inv_r in H2 as (i & a2 & (s & -> & Hi) & H2 & ->).
  pose proof (cells_with_sorted Empty b) as Hsorted. rewrite Hav in Hsorted.
  assert (i ∈ cells_with Empty b) as [Hbi _]%elem_of_cells_with.
  { rewrite Hav. apply elem_of_app. right. left. }
  exists i. repeat split; [done..|].
  intros j sj Hbj Hj9 Hsj.
  assert (j ∈ cells_with Empty b) as Hj by by apply elem_of_cells_with.
  rewrite Hav in Hj. apply elem_of_app in Hj as [Hj|Hj];
    [|apply elem_of_cons in Hj as [->|Hj]].
  - left. split.
    + apply (StronglySorted_app_1_elem_of _ _ _ _ _ Hsorted); [done | left].
    + destruct (Forall2_elem_of_l _ _ _ _ H1 Hj) as (ev & Hev & s' & -> & Hs').
      assert (s' = sj) as -> by congruence. done.
  - right. left. split; [done|]. simpl. congruence.
  - right. right. split.
    + apply StronglySorted_app_1_r, StronglySorted_cons in Hsorted as [Hi' _].
      rewrite Forall_forall in Hi'. auto.
    + destruct (Forall2_elem_of_l _ _ _ _ H2 Hj) as (ev & Hev & s' & -> & Hs').
      assert (s' = sj) as -> by congruence. done.
Qed.
End selection.

(** C1, as stated, fails for ["X"]: on the empty board every cell is a
    candidate and every cell yields score 0, the maximal score, and
    [minimax] returns cell 8, not cell 0. *)
Lemma minimax_lowest_index_counterexample :
  check_player_win empty_board X = Ret None ∧
  Forall (λ j, empty_board !! j = Some Empty ∧
               child_score 9 empty_board X O j = Ret 0) (seq 0 9) ∧
  minimax 10 empty_board X O = Ret (Some 8%nat, 0).
Proof.
  split; [by vm_compute|]. split; [|by vm_compute].
  repeat (constructor; [split; [reflexivity | by vm_compute]|]).
  constructor.
Qed.

(** C1, amended.  On a board of nine cells where [check_player_win] finds
    nothing for the mover and some cell is empty, [minimax] returns an
    empty cell together with the score recorded for it; that score is
    maximal among the scores of the empty cells when the mover is ["X"] and
    minimal when the mover is ["O"]; and among the empty cells with that
    score the returned one is the highest-index cell for ["X"] and the
    lowest-index cell for ["O"]. *)
Theorem minimax_tie_break (b : list cell) (p o : mark) (fuel : nat) :
  length b = 9%nat →
  check_player_win b p = Ret None →
  cells_with Empty b ≠ [] →
  (length (cells_with Empty b) ≤ fuel)%nat →
  ∃ i s,
    minimax (S fuel) b p o = Ret (Some i, s) ∧
    b !! i = Some Empty ∧
    child_score fuel b p o i = Ret s ∧
    ∀ j sj,
      b !! j = Some Empty → child_score fuel b p o j = Ret sj →
      match p with
      | X => sj ≤ s ∧ (sj = s → (j ≤ i)%nat)
      | O => s ≤ sj ∧ (sj = s → (i ≤ j)%nat)
      end.
Proof.
  intros Hb Hwin Hav Hfuel.
  destruct (minimax_scores fuel b p o) as (scores & Hloop & Hscores);
    [lia | done |].
  assert (minimax (S fuel) b p o =
            match p with
            | X => getitem (sort_by_key snd scores)
                           (pred (length (sort_by_key snd scores)))
            | O => getitem (sort_by_key snd scores) 0
            end) as ->.
  { cbn [minimax]. rewrite Hwin. cbn [mbind outcome_bind].
    rewrite avail_moves_Ret by lia. cbn [mbind outcome_bind].
    destruct (cells_with Empty b) as [|a av] eqn:Heq; [done|].
    by rewrite Hloop. }
  assert (sort_by_key snd scores ≠ []) as Hne.
  { intros Hnil%(f_equal length). rewrite length_sort_by_key in Hnil.
    apply Forall2_length in Hscores. destruct (cells_with Empty b); [done|].
    simpl in *. lia. }
  unfold getitem. rewrite <- last_lookup, <- head_lookup.
  destruct p.
  - destruct (last (sort_by_key snd scores)) as [x|] eqn:Hlast;
      [|by apply last_None in Hlast].
    apply last_sort_by_key in Hlast as (l1 & l2 & Hsplit & H1 & H2).
    destruct (selection_split fuel b X o scores l1 l2 x Hsplit Hscores)
      as (i & Hx & Hi & Hs & Hrest).
    exists i, x.2. rewrite <- Hx. do 3 (split; [done|]).
    intros j sj Hj Hsj.
    rewrite Forall_forall in H1, H2.
    destruct (Hrest j sj Hj ltac:(apply lookup_lt_Some in Hj; lia) Hsj)
      as [[Hlt Hin]|[[-> ->]|[Hlt Hin]]].
    + apply H1 in Hin. simpl in Hin. split; lia.
    + split; lia.
    + apply H2 in Hin. simpl in Hin. split; lia.
  - destruct (head (sort_by_key snd scores)) as [x|] eqn:Hhead;
      [|by apply head_None in Hhead].
    apply head_sort_by_key in Hhead as (l1 & l2 & Hsplit & H1 & H2).
    destruct (selection_split fuel b O o scores l1 l2 x Hsplit Hscores)
      as (i & Hx & Hi & Hs & Hrest).
    exists i, x.2. rewrite <- Hx. do 3 (split; [done|]).
    intros j sj Hj Hsj.
    rewrite Forall_forall in H1, H2.
    destruct (Hrest j sj Hj ltac:(apply lookup_lt_Some in Hj; lia) Hsj)
      as [[Hlt Hin]|[[-> ->]|[Hlt Hin]]].
    + apply H1 in Hin. simpl in Hin. split; lia.
    + split; lia.
    + apply H2 in Hin. simpl in Hin. split; lia.
Qed.

Lemma minimax_tie_break_witness :
  ∃ i s,
    minimax 10 empty_board O X = Ret (Some i, s) ∧
    empty_board !! i = Some Empty ∧
    child_score 9 empty_board O X i = Ret s ∧
    ∀ j sj,
      empty_board !! j = Some Empty → child_score 9 empty_board O X j = Ret sj →
      s ≤ sj ∧ (sj = s → (i ≤ j)%nat).
Proof.
  apply (minimax_tie_break empty_board O X 9).
  - reflexivity.
  - reflexivity.
  - by vm_compute.
  - vm_compute. lia.
Defined.

(** ** [minimax] on the store *)

Lemma copy_assign (σ : Store.store) board bv i c :
  σ !! board = Some bv →
  let l := fresh (dom σ) in
  (cp ← Store.copy σ board; Store.assign cp.1 cp.2 i c)
  = (nb ← setitem bv i c; Ret (<[l := nb]> σ)) ∧
  l ≠ board ∧ σ !! l = None.
Proof.
  intros Hb l.
  assert (σ !! l = None) as Hl by apply not_elem_of_dom, is_fresh.
  split; [|split; [congruence | done]].
  unfold Store.copy, Store.assign, Store.read. rewrite Hb.
  cbn [mbind outcome_bind fst snd]. fold l. rewrite lookup_insert_eq.
  cbn [mbind outcome_bind].
  destruct (setitem bv i c) as [nb| |]; [|done..].
  cbn [mbind outcome_bind]. by rewrite insert_insert_eq.
Qed.

Section store_loop.
Context (fuel : nat) (board : Store.loc) (bv : list cell) (p o : mark).
Hypothesis IH : ∀ (σ : Store.store) l v q r,
  σ !! l = Some v →
  extends_with σ (minimax fuel v q r) (Store.minimax fuel l q r σ).

Lemma store_loop_body (σ : Store.store) i :
  σ !! board = Some bv →
  extends_with σ
    (new_board ← setitem bv i (Mark p);
     r ← minimax fuel new_board o p;
     Ret (Some i, r.2))
    (cp ← Store.copy σ board;
     σ1 ← Store.assign cp.1 cp.2 i (Mark p);
     r ← Store.minimax fuel cp.2 o p σ1;
     Ret (r.1, (Some i, r.2.2))).
Proof.
  intros Hb.
  destruct (copy_assign σ board bv i (Mark p) Hb) as (Hca & Hne & Hfresh).
  unfold Store.copy, Store.assign, Store.read in *. rewrite Hb in *.
  cbn [mbind outcome_bind fst snd] in *.
  rewrite lookup_insert_eq in *. cbn [mbind outcome_bind] in *.
  destruct (setitem bv i (Mark p)) as [nb| |]; [|done..].
  cbn [mbind outcome_bind] in *.
  set (l := fresh (dom σ)) in *.
  injection Hca as Hca. rewrite Hca.
  pose proof (IH (<[l := nb]> σ) l nb o p (lookup_insert_eq _ _ _)) as Hrec.
  destruct (minimax fuel nb o p) as [r| |]; simpl in Hrec |- *;
    [|by rewrite Hrec..].
  destruct Hrec as (σ' & -> & Hsub). simpl. eexists. split; [done|].
  etrans; [|done]. by apply insert_subseteq.
Qed.

Lemma store_loop (l : list nat) (σ : Store.store) :
  σ !! board = Some bv →
  extends_with σ
    (mapM (λ i, new_board ← setitem bv i (Mark p);
                r ← minimax fuel new_board o p;
                Ret (Some i, r.2)) l)
    (Store.for_each
       (λ i σ0,
          cp ← Store.copy σ0 board;
          σ1 ← Store.assign cp.1 cp.2 i (Mark p);
          r ← Store.minimax fuel cp.2 o p σ1;
          Ret (r.1, (Some i, r.2.2))) l σ).
Proof.
  revert σ. induction l as [|i l IHl]; intros σ Hb.
  { simpl. eauto. }
  pose proof (store_loop_body σ i Hb) as Hbody.
  cbn [mapM Store.for_each].
  destruct (setitem bv i (Mark p) ≫= _) as [ev| |]; simpl in Hbody;
    [|by rewrite Hbody..].
  destruct Hbody as (σ1 & -> & Hsub1). cbn [mbind outcome_bind fst snd].
  specialize (IHl σ1 (lookup_weaken _ _ _ _ Hb Hsub1)).
  destruct (mapM _ l) as [evs| |]; simpl in IHl; [|by rewrite IHl..].
  destruct IHl as (σ2 & -> & Hsub2). simpl. eexists. split; [done|].
  by etrans.
Qed.
End store_loop.

Lemma store_minimax_refines fuel (σ : Store.store) board bv p o :
  σ !! board = Some bv →
  extends_with σ (minimax fuel bv p o) (Store.minimax fuel board p o σ).
Proof.
  revert σ board bv p o.
  induction fuel as [|fuel IH]; intros σ board bv p o Hb; [done|].
  cbn [minimax Store.minimax]. unfold Store.read. rewrite Hb.
  cbn [mbind outcome_bind].
  destruct (check_player_win bv p) as [[[i s]|]| |];
    cbn [mbind outcome_bind]; [by eexists | | done..].
  destruct (avail_moves bv) as [[|a av]| |];
    cbn [mbind outcome_bind]; [by eexists | | done..].
  pose proof (store_loop fuel board bv p o IH (a :: av) σ Hb) as Hloop.
  destruct (mapM _ (a :: av)) as [scores| |]; cbn [extends_with] in Hloop;
    [|by rewrite Hloop..].
  destruct Hloop as (σ' & -> & Hsub). cbn [mbind outcome_bind fst snd].
  destruct (match p with X => _ | O => _ end) as [ev| |]; simpl; eauto.
Qed.

(** C7.  [minimax] never mutates the board it receives: when a call on
    the board object [board] returns, every object that was in the store
    before the call, [board] included, has the contents it had, and the
    result is the one computed from the contents of [board]; the lists
    written to are the copies made by the call.  On a board of nine cells
    the call does return. *)
Theorem minimax_never_mutates (fuel : nat) (σ : Store.store)
    (board : Store.loc) (bv : list cell) (p o : mark) :
  σ !! board = Some bv →
  (∀ σ' r,
     Store.minimax fuel board p o σ = Ret (σ', r) →
     σ' !! board = Some bv ∧ σ ⊆ σ' ∧ minimax fuel bv p o = Ret r) ∧
  (length bv = 9%nat → (length (cells_with Empty bv) < fuel)%nat →
   ∃ σ' r, Store.minimax fuel board p o σ = Ret (σ', r)).
Proof.
  intros Hb. pose proof (store_minimax_refines fuel σ board bv p o Hb) as Href.
  split.
  - intros σ' r Hrun. rewrite Hrun in Href.
    destruct (minimax fuel bv p o) as [r'| |]; cbn [extends_with] in Href;
      [|done..].
    destruct Href as (σ'' & [= <- <-] & Hsub).
    split; [by eapply lookup_weaken|]. done.
  - intros Hlen Hfuel.
    destruct (minimax_enough_fuel fuel bv p o) as [r Hr]; [lia | done |].
    rewrite Hr in Href. destruct Href as (σ' & Hrun & _). eauto.
Qed.

Lemma minimax_never_mutates_witness :
  let bv := [Mark X; Mark O; Mark X; Mark O; Empty; Empty; Empty; Empty; Mark O] in
  let σ : Store.store := {[ 1%positive := bv ]} in
  ∃ σ' r, Store.minimax 6 1%positive X O σ = Ret (σ', r) ∧
          σ' !! 1%positive = Some bv ∧ σ ⊆ σ' ∧ minimax 6 bv X O = Ret r.
Proof.
  intros bv σ.
  destruct (minimax_never_mutates 6 σ 1%positive bv X O) as [Hframe Hret].
  - reflexivity.
  - destruct Hret as (σ' & r & Hrun); [reflexivity | vm_compute; lia |].
    exists σ', r. split; [exact Hrun | exact (Hframe σ' r Hrun)].
Defined.

(** ** Placing a mark *)






(** * Further properties of the win oracle *)

(** X1.  The list returned by [avail_moves] is strictly ascending and
    holds exactly the indices below nine of the empty cells. *)
Theorem avail_moves_ascending (b : list cell) (av : list nat) :
  avail_moves b = Ret av →
  StronglySorted lt av ∧
  ∀ i, i ∈ av ↔ (i < 9)%nat ∧ b !! i = Some Empty.
Proof.
  destruct (decide (length b < 9)%nat) as [Hb|Hb].
  { unfold avail_moves.
    by rewrite (comprehension_short (λ c, bool_decide (c = Empty))). }
  rewrite avail_moves_Ret by lia. intros [= <-].
  split; [apply cells_with_sorted|].
  intros i. rewrite elem_of_cells_with. tauto.
Qed.

Lemma avail_moves_ascending_witness :
  let b := [Mark X; Empty; Mark O; Empty; Empty; Mark X; Mark O; Empty; Mark X] in
  StronglySorted lt [1; 3; 4; 7]%nat ∧
  ∀ i, i ∈ [1; 3; 4; 7]%nat ↔ (i < 9)%nat ∧ b !! i = Some Empty.
Proof.
  apply (avail_moves_ascending
    [Mark X; Empty; Mark O; Empty; Empty; Mark X; Mark O; Empty; Mark X]).
  reflexivity.
Defined.

(** X2.  [avail_moves] and [check_player_win] raise [IndexError] exactly
    on the lists of fewer than nine cells, and fail in no other way: the
    lookup [magic_[surp]] never misses its key. *)
Theorem win_oracle_errors (b : list cell) (p : mark) :
  (avail_moves b = Raise IndexError ↔ (length b < 9)%nat) ∧
  (check_player_win b p = Raise IndexError ↔ (length b < 9)%nat) ∧
  avail_moves b ≠ Raise KeyError ∧ avail_moves b ≠ OutOfFuel ∧
  check_player_win b p ≠ Raise KeyError ∧ check_player_win b p ≠ OutOfFuel.
Proof.
  destruct (decide (length b < 9)%nat) as [Hb|Hb].
  - rewrite check_player_win_short by done. unfold avail_moves.
    rewrite (comprehension_short (λ c, bool_decide (c = Empty))) by done.
    repeat split; done.
  - rewrite avail_moves_Ret by lia.
    destruct (check_player_win_total b p) as [r ->]; [lia|].
    repeat split; done.
Qed.

Lemma win_oracle_errors_witness :
  check_player_win [Mark X; Empty; Mark X] X = Raise IndexError ∧
  check_player_win empty_board X ≠ Raise KeyError.
Proof.
  destruct (win_oracle_errors [Mark X; Empty; Mark X] X) as (_ & Hshort & _).
  destruct (win_oracle_errors empty_board X) as (_ & _ & _ & _ & Hkey & _).
  split; [apply Hshort; simpl; lia | exact Hkey].
Defined.

(** ** The cell returned by [check_player_win] wins *)

Lemma line_of_three x y z :
  x ≠ z → y ≠ z → x ≠ y → on_common_line x y z →
  Exists (λ l, z ∈ l ∧ Forall (λ c, c = x ∨ c = y ∨ c = z) l) winning_lines.
Proof.
  intros Hxz Hyz Hxy Hline.
  destruct (on_common_line_lt _ _ _ Hline) as (Hx & Hy & Hz).
  assert (Forall (λ x, Forall (λ y, Forall (λ z,
            x ≠ z → y ≠ z → x ≠ y → on_common_line x y z →
            Exists (λ l, z ∈ l ∧ Forall (λ c, c = x ∨ c = y ∨ c = z) l)
                   winning_lines)
            (seq 0 9)) (seq 0 9)) (seq 0 9)) as Hall.
  { apply (bool_decide_unpack _). by vm_compute. }
  rewrite Forall_forall in Hall.
  specialize (Hall x ltac:(apply elem_of_seq; lia)).
  rewrite Forall_forall in Hall.
  specialize (Hall y ltac:(apply elem_of_seq; lia)).
  rewrite Forall_forall in Hall.
  apply (Hall z); [apply elem_of_seq; lia | done..].
Qed.

Lemma two_more_on_line l i :
  l ∈ winning_lines → i ∈ l →
  ∃ x y, x ∈ l ∧ y ∈ l ∧ x ≠ y ∧ x ≠ i ∧ y ≠ i ∧ on_common_line x y i.
Proof.
  intros Hl Hi.
  assert (Forall (λ l, Forall (λ i,
            Exists (λ x, Exists (λ y,
              x ≠ y ∧ x ≠ i ∧ y ≠ i ∧ on_common_line x y i) l) l) l)
            winning_lines) as Hall.
  { apply (bool_decide_unpack _). by vm_compute. }
  rewrite Forall_forall in Hall. specialize (Hall l Hl).
  rewrite Forall_forall in Hall. specialize (Hall i Hi).
  apply Exists_exists in Hall as (x & Hx & Hall).
  apply Exists_exists in Hall as (y & Hy & Hall).
  exists x, y. tauto.
Qed.

Lemma open_line_completes b p x y z :
  x ≠ y → on_common_line x y z →
  b !! x = Some (Mark p) → b !! y = Some (Mark p) → b !! z = Some Empty →
  completes b p z.
Proof.
  intros Hxy Hline Hx Hy Hz. split; [done|].
  assert (x ≠ z) as Hxz by (intros ->; congruence).
  assert (y ≠ z) as Hyz by (intros ->; congruence).
  pose proof (line_of_three x y z Hxz Hyz Hxy Hline) as Hex.
  eapply Exists_impl; [done|]. simpl. intros l [Hzl Hall]. split; [done|].
  eapply Forall_impl; [done|]. simpl. intros c [-> | [-> | ->]].
  - by rewrite list_lookup_insert_ne.
  - by rewrite list_lookup_insert_ne.
  - apply list_lookup_insert_eq. by eapply lookup_lt_Some.
Qed.

Lemma completes_open_line b p i : completes b p i → open_line b p.
Proof.
  intros [Hi (l & Hl & Hil & Hall)%Exists_exists].
  destruct (two_more_on_line l i Hl Hil) as (x & y & Hx & Hy & ? & ? & ? & ?).
  rewrite Forall_forall in Hall.
  exists x, y, i. repeat split; [done | done | | | done].
  - specialize (Hall x Hx). by rewrite list_lookup_insert_ne in Hall.
  - specialize (Hall y Hy). by rewrite list_lookup_insert_ne in Hall.
Qed.

Lemma check_player_win_pair b p i s :
  check_player_win b p = Ret (Some (i, s)) →
  ∃ x y, x ≠ y ∧ on_common_line x y i ∧
    b !! x = Some (Mark p) ∧ b !! y = Some (Mark p) ∧ b !! i = Some Empty.
Proof.
  destruct (decide (length b < 9)%nat) as [Hb|Hb].
  { by rewrite check_player_win_short. }
  rewrite check_player_win_unfold by lia.
  intros ([x y] & Hin & Hhit & Hi & ->)%scan_pairs_inv;
    [|apply pairs_in_range]. simpl in *.
  pose proof (combinations2_distinct _ _ _ (NoDup_cells_with _ _) Hin) as Hne.
  apply combinations2_elem_of in Hin as [Hx Hy].
  apply elem_of_cells_with in Hx as [Hx Hx9], Hy as [Hy Hy9].
  destruct (hit_open_line b p x y) as (z & Hz & Hz9 & Hline & Heq); try done.
  rewrite <- Heq, magic_round_trip in Hi by done. injection Hi as <-.
  by exists x, y.
Qed.

(** X3.  On a board of nine cells, the cell returned by
    [check_player_win] is empty and placing the player's mark there fills
    a winning line through it; and whenever some empty cell would fill a
    line for the player, [check_player_win] returns a cell. *)
Theorem check_player_win_completes (b : list cell) (p : mark) :
  length b = 9%nat →
  (∀ i s, check_player_win b p = Ret (Some (i, s)) →
          completes b p i ∧ has_line (<[i := Mark p]> b) p) ∧
  ((∃ j, completes b p j) → ∃ r, check_player_win b p = Ret (Some r)).
Proof.
  intros Hb. split.
  - intros i s (x & y & Hxy & Hline & Hx & Hy & Hi)%check_player_win_pair.
    pose proof (open_line_completes b p x y i Hxy Hline Hx Hy Hi) as Hc.
    split; [done|]. destruct Hc as [_ Hex]. unfold has_line.
    eapply Exists_impl; [done|]. simpl. tauto.
  - intros [j Hj%completes_open_line].
    destruct (open_line_check_player_win b p Hb Hj) as [i Hi]. eauto.
Qed.

Lemma check_player_win_completes_witness :
  let b := [Mark X; Mark X; Empty; Mark O; Mark O; Empty; Empty; Empty; Empty] in
  completes b O 5 ∧ has_line (<[5%nat := Mark O]> b) O.
Proof.
  intros b.
  destruct (check_player_win_completes b O) as [Hwin _]; [reflexivity|].
  apply (Hwin 5%nat (-1)). reflexivity.
Defined.

(** * Further properties of the search engine *)

Lemma mapM_Raise {A B} (f : A → outcome B) l e :
  mapM f l = Raise e → ∃ x, x ∈ l ∧ f x = Raise e.
Proof.
  induction l as [|x l IH]; [done|]. cbn [mapM].
  destruct (f x) as [y| |] eqn:Hx; cbn [mbind outcome_bind]; [|intros [= <-]|done].
  - destruct (mapM f l) as [k| |]; cbn [mbind outcome_bind]; [done| |done].
    intros [= <-]. destruct IH as (x' & ? & ?); [done|].
    exists x'. split; [by right | done].
  - exists x. split; [left | done].
Qed.

Lemma getitem_elem_of {A} (l : list A) i x : getitem l i = Ret x → x ∈ l.
Proof. intros ?%getitem_Ret. by eapply list_elem_of_lookup_2. Qed.

Lemma avail_moves_inv b av :
  avail_moves b = Ret av → av = cells_with Empty b ∧ (9 ≤ length b)%nat.
Proof.
  destruct (decide (length b < 9)%nat) as [Hb|Hb].
  { unfold avail_moves.
    by rewrite (comprehension_short (λ c, bool_decide (c = Empty))). }
  rewrite avail_moves_Ret by lia. intros [= <-]. split; [done | lia].
Qed.

(** The three ways in which [minimax] returns. *)
Lemma minimax_Ret_cases fuel b p o mv s :
  minimax (S fuel) b p o = Ret (mv, s) →
  (∃ i, check_player_win b p = Ret (Some (i, s)) ∧ mv = Some i) ∨
  (check_player_win b p = Ret None ∧ avail_moves b = Ret [] ∧
   mv = None ∧ s = 0) ∨
  (check_player_win b p = Ret None ∧
   ∃ av i, avail_moves b = Ret av ∧ i ∈ av ∧ mv = Some i ∧
           child_score fuel b p o i = Ret s).
Proof.
  cbn [minimax].
  destruct (check_player_win b p) as [[[i sc]|]| |];
    cbn [mbind outcome_bind]; [|  |done..].
  { intros [= <- <-]. left. eauto. }
  destruct (avail_moves b) as [[|a av]| |];
    cbn [mbind outcome_bind]; [| |done..].
  { intros [= <- <-]. right. left. done. }
  intros (scores & Hscores & Hsel)%bind_Ret. right. right. split; [done|].
  assert ((mv, s) ∈ scores) as Hin.
  { rewrite <- (sort_by_key_perm snd scores).
    destruct p; by eapply getitem_elem_of. }
  apply mapM_Ret_1 in Hscores.
  apply list_elem_of_lookup in Hin as [n Hn].
  destruct (Forall2_lookup_r _ _ _ _ _ Hscores Hn) as (i & Hi & Hbody).
  apply loop_body_child_score in Hbody as (s' & [= -> ->] & Hs').
  exists (a :: av), i. split; [done|]. split; [|done].
  by eapply list_elem_of_lookup_2.
Qed.

Lemma minimax_score_bounds fuel b p o mv s :
  minimax fuel b p o = Ret (mv, s) → s = -1 ∨ s = 0 ∨ s = 1.
Proof.
  revert b p o mv s. induction fuel as [|fuel IH]; intros b p o mv s; [done|].
  intros [(i & Hwin & _)|[(_ & _ & _ & ->)|(_ & av & i & _ & _ & _ & Hs)]]
    %minimax_Ret_cases.
  - apply check_player_win_open_line in Hwin as (_ & _ & _ & ->).
    destruct p; simpl; auto.
  - auto.
  - unfold child_score in Hs.
    apply bind_Ret in Hs as (nb & _ & ([mv' s'] & Hr & [= <-])%bind_Ret).
    by eapply IH.
Qed.

(** X4.  Every score returned by [minimax] is [-1], [0] or [1]. *)
Theorem minimax_score_range (fuel : nat) (b : list cell) (p o : mark)
    (mv : option nat) (s : Z) :
  minimax fuel b p o = Ret (mv, s) → s = -1 ∨ s = 0 ∨ s = 1.
Proof. apply minimax_score_bounds. Qed.

Lemma minimax_score_range_witness :
  (0 = -1 ∨ 0 = 0 ∨ 0 = 1).
Proof.
  apply (minimax_score_range 1
    [Mark X; Mark O; Mark X; Mark X; Mark O; Mark O; Mark O; Mark X; Mark X]
    X O None 0).
  reflexivity.
Defined.

(** X5.  A move returned by [minimax] is an empty cell of the board, and
    [minimax] returns no move only when none of the nine cells is empty,
    with score 0. *)
Theorem minimax_move_legal (fuel : nat) (b : list cell) (p o : mark)
    (mv : option nat) (s : Z) :
  minimax fuel b p o = Ret (mv, s) →
  match mv with
  | Some i => (i < 9)%nat ∧ b !! i = Some Empty
  | None => s = 0 ∧ ∀ i, (i < 9)%nat → b !! i ≠ Some Empty
  end.
Proof.
  destruct fuel as [|fuel]; [done|].
  intros [(i & Hwin & ->)|[(_ & Hav & -> & ->)|(_ & av & i & Hav & Hi & -> & _)]]
    %minimax_Ret_cases.
  - apply check_player_win_open_line in Hwin. tauto.
  - split; [done|]. intros i Hi Hempty.
    apply avail_moves_inv in Hav as [Hav _].
    apply (not_elem_of_nil i). rewrite Hav. by apply elem_of_cells_with.
  - apply avail_moves_inv in Hav as [-> _].
    apply elem_of_cells_with in Hi. tauto.
Qed.

Lemma minimax_move_legal_witness :
  let b := [Mark X; Mark O; Empty; Empty; Mark O; Empty; Empty; Mark X; Empty] in
  check_player_win b X = Ret None ∧
  (6 < 9)%nat ∧ b !! 6%nat = Some Empty.
Proof.
  intros b. split; [reflexivity|].
  apply (minimax_move_legal 10 b X O (Some 6%nat) 1).
  vm_compute. reflexivity.
Defined.

(** ** Exceptions of [minimax] *)

Lemma minimax_no_raise fuel b p o e :
  (9 ≤ length b)%nat → minimax fuel b p o ≠ Raise e.
Proof.
  revert b p o e. induction fuel as [|fuel IH]; intros b p o e Hb; [done|].
  cbn [minimax]. destruct (check_player_win_total b p Hb) as [res ->].
  cbn [mbind outcome_bind]. destruct res as [[i s]|]; [done|].
  rewrite avail_moves_Ret by done. cbn [mbind outcome_bind].
  destruct (cells_with Empty b) as [|a av] eqn:Hav; [done|]. rewrite <- Hav.
  destruct (mapM _ (cells_with Empty b)) as [scores| |] eqn:Hscores;
    cbn [mbind outcome_bind]; [| |done].
  - apply mapM_Ret_1, Forall2_length in Hscores.
    assert (0 < length (sort_by_key snd scores))%nat as Hpos.
    { rewrite length_sort_by_key, <- Hscores, Hav. simpl. lia. }
    destruct p.
    + destruct (getitem_lt (sort_by_key snd scores)
                  (pred (length (sort_by_key snd scores)))) as (x & _ & ->);
        [lia | done].
    + destruct (getitem_lt (sort_by_key snd scores) 0) as (x & _ & ->);
        [lia | done].
  - apply mapM_Raise in Hscores as (i & [_ Hi]%elem_of_cells_with & Hbody).
    rewrite setitem_Ret in Hbody by lia. cbn [mbind outcome_bind] in Hbody.
    destruct (minimax fuel (<[i := Mark p]> b) o p) as [r| |] eqn:Hr;
      [done | | done].
    by apply IH in Hr; [|rewrite length_insert].
Qed.

(** X6.  [minimax] raises [IndexError] exactly on the lists of fewer than
    nine cells and raises no other exception, whatever the bound on the
    call depth. *)
Theorem minimax_errors (fuel : nat) (b : list cell) (p o : mark) :
  (minimax (S fuel) b p o = Raise IndexError ↔ (length b < 9)%nat) ∧
  minimax (S fuel) b p o ≠ Raise KeyError.
Proof.
  destruct (decide (length b < 9)%nat) as [Hb|Hb].
  - by rewrite minimax_short.
  - split; [split; [|lia]|]; intros H; by apply minimax_no_raise in H; [|lia].
Qed.

Lemma minimax_errors_witness :
  minimax 3 [Mark X; Empty; Mark X] X O = Raise IndexError ∧
  minimax 3 empty_board X O ≠ Raise KeyError.
Proof.
  split.
  - apply (minimax_errors 2 [Mark X; Empty; Mark X] X O). simpl. lia.
  - apply (minimax_errors 2 empty_board X O).
Defined.

(** ** Positions that [minimax] explores *)

Lemma has_line_insert b p q i :
  b !! i = Some Empty →
  has_line (<[i := Mark p]> b) q → has_line b q ∨ (q = p ∧ completes b p i).
Proof.
  intros Hi (l & Hl & Hall)%Exists_exists.
  pose proof (lookup_lt_Some _ _ _ Hi) as Hlt.
  destruct (decide (i ∈ l)) as [Hil|Hil].
  - right. rewrite Forall_forall in Hall. pose proof (Hall i Hil) as Hq.
    rewrite list_lookup_insert_eq in Hq by done. injection Hq as ->.
    split; [done|]. split; [done|]. apply Exists_exists. exists l.
    by rewrite Forall_forall.
  - left. apply Exists_exists. exists l. split; [done|].
    rewrite Forall_forall in Hall |- *. intros c Hc.
    rewrite <- (Hall c Hc). symmetry. apply list_lookup_insert_ne.
    by intros ->.
Qed.

(** X7.  [minimax] never searches past the end of a game: on a board of
    nine cells where nobody has three in a row and the mover has no
    winning cell, none of the boards handed to the recursive calls has
    three in a row. *)
Theorem minimax_explores_unfinished (b : list cell) (p : mark)
    (av : list nat) (i : nat) (new_board : list cell) :
  length b = 9%nat →
  ¬ has_line b X → ¬ has_line b O →
  check_player_win b p = Ret None →
  avail_moves b = Ret av → i ∈ av →
  setitem b i (Mark p) = Ret new_board →
  ¬ has_line new_board X ∧ ¬ has_line new_board O.
Proof.
  intros Hb HX HO Hwin [-> _]%avail_moves_inv [Hi Hi9]%elem_of_cells_with.
  rewrite setitem_Ret by lia. intros [= <-].
  assert (∀ q, has_line (<[i := Mark p]> b) q → has_line b q) as Hkeep.
  { intros q [?|[-> Hc%completes_open_line]]%has_line_insert; [done| |done].
    destruct (open_line_check_player_win b p Hb Hc) as [j Hj]. congruence. }
  split; intros ?%Hkeep; done.
Qed.

Lemma minimax_explores_unfinished_witness :
  let b := [Mark X; Empty; Empty; Empty; Mark O; Empty; Empty; Empty; Empty] in
  ¬ has_line (<[8%nat := Mark X]> b) X ∧ ¬ has_line (<[8%nat := Mark X]> b) O.
Proof.
  intros b.
  apply (minimax_explores_unfinished b X [1; 2; 3; 5; 6; 7; 8]%nat 8);
    try reflexivity.
  - by apply (bool_decide_unpack _).
  - by apply (bool_decide_unpack _).
  - by apply (bool_decide_unpack _).
Defined.

(** ** The score and winning strategies *)

Lemma child_score_Ret fuel b p o i s :
  child_score fuel b p o i = Ret s ↔
  (i < length b)%nat ∧ ∃ mv, minimax fuel (<[i := Mark p]> b) o p = Ret (mv, s).
Proof.
  unfold child_score, setitem. case_bool_decide as Hi; cbn [mbind outcome_bind].
  - destruct (minimax fuel _ o p) as [[mv s']| |]; simpl.
    + split; [intros [= <-]; eauto | by intros (_ & mv' & [= _ ->])].
    + split; [done | by intros (_ & ? & ?)].
    + split; [done | by intros (_ & ? & ?)].
  - split; [done | tauto].
Qed.

(** When [minimax] searches, its score is the score of some empty cell,
    and no empty cell has a better score for the mover. *)
Lemma minimax_extremal fuel b p o mv s :
  (9 ≤ length b)%nat →
  check_player_win b p = Ret None → cells_with Empty b ≠ [] →
  minimax (S fuel) b p o = Ret (mv, s) →
  (∃ i, i ∈ cells_with Empty b ∧ child_score fuel b p o i = Ret s) ∧
  ∀ j, j ∈ cells_with Empty b →
    ∃ sj, child_score fuel b p o j = Ret sj ∧
          match p with X => sj ≤ s | O => s ≤ sj end.
Proof.
  intros Hb Hwin Hav. cbn [minimax]. rewrite Hwin. cbn [mbind outcome_bind].
  rewrite avail_moves_Ret by done. cbn [mbind outcome_bind].
  destruct (cells_with Empty b) as [|a av] eqn:Heq; [done|]. rewrite <- Heq.
  intros (scores & Hscores & Hsel)%bind_Ret.
  apply mapM_Ret_1 in Hscores.
  assert (Forall2 (λ i ev, ∃ s, ev = (Some i, s) ∧
                                child_score fuel b p o i = Ret s)
                  (cells_with Empty b) scores) as Hall.
  { eapply Forall2_impl; [done|]. intros i ev. apply loop_body_child_score. }
  clear Hscores.
  assert (∃ l1 l2, scores = l1 ++ (mv, s) :: l2 ∧
            Forall (λ ev, match p with X => ev.2 ≤ s | O => s ≤ ev.2 end)
                   scores) as (l1 & l2 & Hsplit & Hext).
  { unfold getitem in Hsel. destruct p.
    - rewrite <- last_lookup in Hsel.
      destruct (last (sort_by_key snd scores)) as [x|] eqn:Hlast; [|done].
      injection Hsel as ->.
      apply last_sort_by_key in Hlast as (l1 & l2 & -> & H1 & H2).
      exists l1, l2. split; [done|].
      apply Forall_app. split; [done|]. constructor; [done|].
      eapply Forall_impl; [done|]. simpl. lia.
    - rewrite <- head_lookup in Hsel.
      destruct (head (sort_by_key snd scores)) as [x|] eqn:Hhead; [|done].
      injection Hsel as ->.
      apply head_sort_by_key in Hhead as (l1 & l2 & -> & H1 & H2).
      exists l1, l2. split; [done|].
      apply Forall_app. split; [|by constructor].
      eapply Forall_impl; [done|]. simpl. lia. }
  split.
  - assert ((mv, s) ∈ scores) as (n & Hn)%list_elem_of_lookup.
    { rewrite Hsplit. apply elem_of_app. right. left. }
    destruct (Forall2_lookup_r _ _ _ _ _ Hall Hn) as (i & Hi & s' & [= -> ->] & Hs).
    exists i. split; [by eapply list_elem_of_lookup_2 | done].
  - intros j Hj.
    destruct (Forall2_elem_of_l _ _ _ _ Hall Hj) as (ev & Hev & sj & -> & Hsj).
    exists sj. split; [done|]. rewrite Forall_forall in Hext.
    apply (Hext _ Hev).
Qed.

Lemma other_involutive p : other (other p) = p.
Proof. by destruct p. Qed.

Lemma other_ne p : other p ≠ p.
Proof. by destruct p. Qed.

Lemma no_completes_of_None b p i :
  length b = 9%nat → check_player_win b p = Ret None → ¬ completes b p i.
Proof.
  intros Hb Hwin Hc%completes_open_line.
  destruct (open_line_check_player_win b p Hb Hc) as [j Hj]. congruence.
Qed.

Lemma two_marks p t : p ≠ t → p = other t.
Proof. by destruct p, t. Qed.

Lemma minimax_forced_win fuel b t o p mv s :
  o = other t → length b = 9%nat →
  minimax fuel b t o = Ret (mv, s) →
  s = score_dict p ↔ forced_win p t b.
Proof.
  revert b t o p mv s.
  induction fuel as [|fuel IH]; intros b t o p mv s Ho Hb Hrun; [done|].
  pose proof (minimax_score_bounds _ _ _ _ _ _ Hrun) as Hs.
  pose proof Hrun as
    [(i & Hwin & _)|[(Hwin & Hav & _ & ->)|(Hwin & av & i & Hav & Hi & _ & _)]]
    %minimax_Ret_cases.
  - (* the mover fills a line at once *)
    assert (completes b t i) as Hnow.
    { apply check_player_win_pair in Hwin
        as (x & y & Hxy & Hline & Hx & Hy & Hbi).
      by eapply open_line_completes. }
    apply check_player_win_open_line in Hwin as (_ & _ & _ & ->).
    destruct (decide (p = t)) as [->|Hne].
    + split; [intros _; by eapply fw_now | done].
    + split; [by destruct p, t|].
      intros Hfw. inversion Hfw as [| |b' _ Hno _]; subst; [done..|].
      by apply Hno in Hnow.
  - (* no empty cell is left *)
    apply avail_moves_inv in Hav as [Hav _].
    assert (∀ i, b !! i ≠ Some Empty) as Hfull.
    { intros i Hi. apply (not_elem_of_nil i). rewrite Hav.
      apply elem_of_cells_with. split; [done|].
      apply lookup_lt_Some in Hi. lia. }
    split; [by destruct p|].
    intros Hfw. inversion Hfw as [b' i [Hi _]|b' i Hi|b' [i Hi]]; subst;
      by apply Hfull in Hi.
  - (* the search *)
    apply avail_moves_inv in Hav as [-> _].
    destruct (minimax_extremal fuel b t o mv s) as [(k & Hk & Hsk) Hall];
      [lia | done | intros Hnil; rewrite Hnil in Hi; by apply elem_of_nil in Hi | done |].
    assert (∀ j sj q, child_score fuel b t o j = Ret sj →
              (sj = -1 ∨ sj = 0 ∨ sj = 1) ∧
              (sj = score_dict q ↔ forced_win q o (<[j := Mark t]> b)))
      as Hchild.
    { intros j sj q (Hj & mv' & Hr)%child_score_Ret. split.
      - by eapply minimax_score_bounds.
      - eapply IH; [|by rewrite length_insert|done]. by destruct t; subst o. }
    assert (∀ j, b !! j = Some Empty → j ∈ cells_with Empty b) as Hcell.
    { intros j Hj. apply elem_of_cells_with. split; [done|].
      apply lookup_lt_Some in Hj. lia. }
    destruct (decide (p = t)) as [->|Hne%two_marks].
    + split.
      * intros ->. apply elem_of_cells_with in Hk as [Hk _].
        eapply fw_move; [done|]. rewrite <- Ho.
        by apply (Hchild k (score_dict t) t).
      * intros Hfw. inversion Hfw as [b' j Hj|b' j Hj Hfw'|b' _ _ _ Hbad]; subst.
        -- by apply no_completes_of_None in Hj.
        -- destruct (Hall j (Hcell j Hj)) as (sj & Hsj & Hle).
           destruct (Hchild j sj t Hsj) as [_ Hiff].
           apply Hiff in Hfw'. subst sj.
           destruct t; simpl in *; lia.
        -- by destruct t.
    + subst p. rewrite <- Ho. split.
      * intros ->. replace t with (other o) in * by (subst o; apply other_involutive).
        apply fw_reply.
        -- apply elem_of_cells_with in Hk as [Hk _]. eauto.
        -- intros j. by apply no_completes_of_None.
        -- intros j Hj. destruct (Hall j (Hcell j Hj)) as (sj & Hsj & Hle).
           destruct (Hchild j sj o Hsj) as [Hrange Hiff].
           apply Hiff. destruct o; simpl in *; lia.
      * intros Hfw.
        inversion Hfw as [b' j Hj Hbad|b' j Hj Hfw' Hbad|b' _ _ Hrep Hbad];
          subst; [by destruct t..|].
        apply elem_of_cells_with in Hk as [Hk _].
        apply (Hchild k s (other t) Hsk).
        assert (other (other t) = t) as Ht by apply other_involutive.
        rewrite Ht in Hbad. subst. rewrite Ht in Hrep. by apply Hrep.
Qed.

(** X8.  The score of [minimax] is the value of the game: on a board of
    nine cells where nobody has three in a row, with [t] to move and a
    call depth above the number of empty cells, [minimax] returns, and
    its score is [1] exactly when ["X"] can force three in a row, [-1]
    exactly when ["O"] can, and [0] exactly when neither can. *)
Theorem minimax_score_is_game_value (fuel : nat) (b : list cell) (t : mark) :
  length b = 9%nat →
  ¬ has_line b X → ¬ has_line b O →
  (length (cells_with Empty b) < fuel)%nat →
  ∃ mv s,
    minimax fuel b t (other t) = Ret (mv, s) ∧
    (s = 1 ↔ forced_win X t b) ∧
    (s = -1 ↔ forced_win O t b) ∧
    (s = 0 ↔ ¬ forced_win X t b ∧ ¬ forced_win O t b).
Proof.
  intros Hb _ _ Hfuel.
  destruct (minimax_enough_fuel fuel b t (other t)) as [[mv s] Hrun];
    [lia | done |].
  exists mv, s. split; [done|].
  pose proof (minimax_forced_win fuel b t (other t) X mv s eq_refl Hb Hrun) as HX.
  pose proof (minimax_forced_win fuel b t (other t) O mv s eq_refl Hb Hrun) as HO.
  pose proof (minimax_score_bounds _ _ _ _ _ _ Hrun) as Hs.
  simpl in HX, HO. split; [done|]. split; [done|].
  rewrite <- HX, <- HO. lia.
Qed.

Lemma minimax_score_is_game_value_witness :
  let b := [Mark X; Empty; Mark O; Empty; Empty; Empty; Empty; Empty; Empty] in
  ∃ mv s,
    minimax 10 b X O = Ret (mv, s) ∧
    (s = 1 ↔ forced_win X X b) ∧
    (s = -1 ↔ forced_win O X b) ∧
    (s = 0 ↔ ¬ forced_win X X b ∧ ¬ forced_win O X b).
Proof.
  intros b. apply (minimax_score_is_game_value 10 b X).
  - reflexivity.
  - by apply (bool_decide_unpack _).
  - by apply (bool_decide_unpack _).
  - vm_compute. lia.
Defined.

(** * The game loop *)

Lemma sound_ending_ok int_ inputs e :
  sound_ending e → main_ending_ok int_ inputs e.
Proof. by destruct e. Qed.

Lemma main_ending_ok_cons int_ line inputs e :
  main_ending_ok int_ inputs e → main_ending_ok int_ (line :: inputs) e.
Proof.
  destruct e; try done; simpl.
  - intros (-> & l & x & y & Hl & Hrest). split; [done|].
    exists l, x, y. split; [by right | done].
  - intros (l & Hl & Hparse). exists l. split; [by right | done].
Qed.

Lemma explore_sound int_ steps b pl op inputs :
  explore steps b pl op = true →
  main_ending_ok int_ inputs (main_loop int_ steps b pl op inputs).
Proof.
  revert b pl op inputs.
  induction steps as [|steps IH]; intros b pl op inputs; [done|].
  cbn [explore main_loop]. destruct pl.
  - cbn [fst snd]. destruct (ai_turn b) as [b1|e].
    + destruct (after_move b1 op) as [b2|e]; [by apply IH|].
      intros ?%bool_decide_eq_true_1. by apply sound_ending_ok.
    + intros ?%bool_decide_eq_true_1. by apply sound_ending_ok.
  - intros [[Hb Hwait]%andb_true_iff Hall]%andb_true_iff.
    apply bool_decide_eq_true_1 in Hb, Hwait. rewrite forallb_forall in Hall.
    induction inputs as [|line rest IHin]; [done|].
    cbn [human_turn].
    destruct (parse_entry int_ line) as [[x y]|] eqn:Hparse.
    2:{ simpl. exists line. split; [left | done]. }
    unfold human_move.
    destruct (decide (3 * x + y < 9)%nat) as [Hxy|Hxy].
    + specialize (Hall (3 * x + y)%nat ltac:(apply in_seq; lia)).
      destruct (b !! (3 * x + y)%nat) as [[|m]|]; [| |done].
      * rewrite bool_decide_eq_false_2 by (by intros []). cbn [fst snd].
        destruct (after_move _ op) as [b2|e] eqn:Hafter.
        -- by apply main_ending_ok_cons, IH.
        -- apply sound_ending_ok. by apply bool_decide_eq_true_1 in Hall.
      * rewrite bool_decide_eq_true_2 by done.
        by apply main_ending_ok_cons.
    + rewrite lookup_ge_None_2 by lia. simpl. split; [done|].
      exists line, x, y. split; [left|]. split; [done | lia].
Qed.

(** X9.  Every game of [main] is in order, whoever starts and whatever
    lines the human types.  The program announces an AI win only with
    three ["X"] in a row and a draw only on a full board with no three in
    a row; the human never gets three in a row; the game is over within
    nine moves.  The loop raises [ValueError] only on a line that is not
    an entry of two digits and [IndexError] only on an entry that names an
    index of nine or more: the AI's turn raises nothing and never indexes
    the board with [None]. *)
Theorem main_endings_sound (int_ : N → option nat) (lines : list (list N)) :
  main_ending_ok int_ (tail lines) (main int_ lines).
Proof.
  destruct lines as [|answer inputs]; simpl.
  { split; by apply (bool_decide_unpack _). }
  unfold main_from. case_bool_decide; cbn [fst snd];
    apply explore_sound; vm_compute; reflexivity.
Qed.

Lemma main_endings_sound_witness :
  main_ending_ok ascii_digit
    [codes "1,1"; codes "(0, 1)"; codes "0 1"]
    (main ascii_digit [codes "n"; codes "1,1"; codes "(0, 1)"; codes "0 1"]) ∧
  main ascii_digit [codes "y"; codes "(0, 1)"] = ValueError ∧
  main ascii_digit [codes "y"; codes "1 1"; codes "30"] = Exception IndexError.
Proof.
  split; [apply (main_endings_sound ascii_digit
            [codes "n"; codes "1,1"; codes "(0, 1)"; codes "0 1"])|].
  split; vm_compute; reflexivity.
Defined.

(** ** The AI's move *)

(** X10.  On a board of nine cells with an empty cell, the AI's move puts
    one ["X"] on an empty cell and raises nothing.  It is announced as a
    win exactly when that cell fills a line for ["X"]; and when ["X"] has
    no such cell but ["O"] has, the cell played is one that would fill a
    line for ["O"]. *)
Theorem ai_turn_plays_empty_cell (b : list cell) :
  length b = 9%nat → cells_with Empty b ≠ [] →
  ∃ i, b !! i = Some Empty ∧
    (ai_turn b = Stop (AIWins (<[i := Mark X]> b)) ∧ completes b X i ∨
     ai_turn b = Next (<[i := Mark X]> b) ∧
     (∀ j, ¬ completes b X j) ∧
     ((∃ j, completes b O j) → completes b O i)).
Proof.
  intros Hb Hav. unfold ai_turn.
  destruct (check_player_win_total b X) as [res_x Hx]; [lia|].
  destruct (check_player_win_total b O) as [res_o Ho]; [lia|].
  rewrite Hx, Ho. cbn [run].
  destruct res_x as [[i s]|].
  { apply check_player_win_pair in Hx as (x & y & Hxy & Hline & Hpx & Hpy & Hi).
    exists i. split; [done|]. left.
    rewrite setitem_Ret by (by eapply lookup_lt_Some). cbn [run].
    split; [done|]. by eapply open_line_completes. }
  assert (∀ j, ¬ completes b X j) as HnoX.
  { intros j. by apply no_completes_of_None. }
  destruct res_o as [[i s]|]; cbn [run].
  { apply check_player_win_pair in Ho as (x & y & Hxy & Hline & Hpx & Hpy & Hi).
    exists i. split; [done|]. right.
    rewrite setitem_Ret by (by eapply lookup_lt_Some). cbn [run].
    split; [done|]. split; [done|]. intros _. by eapply open_line_completes. }
  destruct (minimax_enough_fuel 10 b X O) as [[mv s] Hrun];
    [lia | pose proof (length_cells_with Empty b); lia |].
  rewrite Hrun. cbn [mbind outcome_bind run fst].
  apply minimax_Ret_cases in Hrun
    as [(i & Hwin & _)|[(_ & Hnil & _)|(_ & av & i & Hav' & Hi & -> & _)]].
  - congruence.
  - apply avail_moves_inv in Hnil as [Hnil _]. congruence.
  - apply avail_moves_inv in Hav' as [-> _].
    apply elem_of_cells_with in Hi as [Hi Hi9].
    exists i. split; [done|]. right.
    rewrite setitem_Ret by lia. cbn [run].
    split; [done|]. split; [done|].
    intros [j Hj]. by apply no_completes_of_None in Hj.
Qed.

Lemma ai_turn_plays_empty_cell_witness :
  let b := [Mark O; Mark O; Empty; Mark X; Empty; Empty; Empty; Empty; Empty] in
  ∃ i, b !! i = Some Empty ∧
    (ai_turn b = Stop (AIWins (<[i := Mark X]> b)) ∧ completes b X i ∨
     ai_turn b = Next (<[i := Mark X]> b) ∧
     (∀ j, ¬ completes b X j) ∧
     ((∃ j, completes b O j) → completes b O i)).
Proof.
  intros b. apply (ai_turn_plays_empty_cell b); [reflexivity | by vm_compute].
Defined.

(** * The interactive game *)

Lemma check_player_win_no_empty b p :
  (9 ≤ length b)%nat → cells_with Empty b = [] →
  check_player_win b p = Ret None.
Proof.
  intros Hb Hav. rewrite check_player_win_unfold, Hav by done.
  apply scan_pairs_None; [apply pairs_in_range|].
  apply Forall_forall. intros t _. apply not_elem_of_nil.
Qed.

Lemma ai_turn_not_YouWin b b' : ai_turn b ≠ Stop (YouWin b').
Proof.
  unfold ai_turn.
  destruct (check_player_win b X) as [res_x| |]; cbn [run]; [|done..].
  destruct (check_player_win b O) as [res_o| |]; cbn [run]; [|done..].
  destruct res_x as [[i s]|].
  { by destruct (setitem b i (Mark X)). }
  destruct res_o as [[i s]|]; cbn [run].
  { by destruct (setitem b i (Mark X)). }
  destruct (minimax 10 b X O) as [[[i|] s]| |];
    cbn [mbind outcome_bind run fst]; [|done..].
  by destruct (setitem b i (Mark X)).
Qed.

(** X11.  [ai_move] never announces a win of the human: after it has
    put the human's mark on the last empty cell, [check_player_win] finds
    nothing on the full board, whatever the board holds. *)
Theorem ai_move_never_you_win (board : list cell) (player opp : mark)
    (b' : list cell) :
  ai_move board player opp ≠ Stop (YouWin b').
Proof.
  unfold ai_move.
  destruct (ai_turn board) as [b|e] eqn:Hturn;
    [|intros [= ->]; by apply ai_turn_not_YouWin in Hturn].
  destruct (avail_moves b) as [av| |] eqn:Hav; cbn [run]; [|done..].
  apply avail_moves_inv in Hav as [-> Hb].
  case_bool_decide as Hone; [|by destruct (cells_with Empty b)].
  destruct (cells_with Empty b) as [|i [|??]] eqn:Hcells; try done.
  cbn [getitem lookup list_lookup run].
  assert (i ∈ cells_with Empty b) as [Hi Hi9]%elem_of_cells_with
    by (rewrite Hcells; left).
  rewrite setitem_Ret by lia. cbn [run].
  rewrite check_player_win_no_empty; [done | by rewrite length_insert |].
  rewrite cells_with_Empty_insert, Hcells.
  rewrite filter_cons, decide_False by (by intros H; apply H). done.
Qed.

Lemma ai_move_never_you_win_witness :
  let b := [Mark X; Mark O; Mark X; Mark X; Mark O; Mark O; Mark O; Empty; Empty] in
  ai_move b X O ≠ Stop (YouWin (<[8%nat := Mark O]> (<[7%nat := Mark X]> b))).
Proof. intros b. apply (ai_move_never_you_win b X O). Defined.

Lemma handle_click_taken b op i m :
  b !! i = Some (Mark m) → handle_click b O op i = Next (b, O, op).
Proof.
  intros Hi. unfold handle_click, getitem. rewrite Hi.
  rewrite bool_decide_eq_false_2 by (by intros []). cbn [run].
  by rewrite bool_decide_eq_true_2.
Qed.

Lemma explore_clicks_sound steps b pl op clicks :
  Forall (λ i, (i < 9)%nat) clicks →
  explore_clicks steps b pl op = true →
  match clicks_loop b pl op clicks with
  | Next s => s.1.2 = O ∧ ¬ has_line s.1.1 X ∧ ¬ has_line s.1.1 O
  | Stop e => sound_ending e
  end.
Proof.
  intros Hin. revert steps b pl op.
  induction Hin as [|i rest Hi _ IH]; intros steps b pl op Hexp;
    (destruct steps as [|steps]; [done|]); pose proof Hexp as Hexp';
    cbn [explore_clicks] in Hexp';
    apply andb_true_iff in Hexp' as [[Hpl Hwait]%andb_true_iff Hall];
    apply bool_decide_eq_true_1 in Hpl, Hwait; subst pl.
  { done. }
  cbn [clicks_loop]. rewrite forallb_forall in Hall.
  specialize (Hall i ltac:(apply in_seq; lia)).
  destruct (b !! i) as [[|m]|] eqn:Hbi; [| |done].
  - destruct (handle_click b O op i) as [s|e].
    + by eapply IH.
    + by apply bool_decide_eq_true_1 in Hall.
  - rewrite (handle_click_taken b op i m) by done. cbn [fst snd].
    by apply (IH (S steps)).
Qed.

(** X12.  Every game of [play_interactive] is in order, whoever starts
    and whatever buttons are clicked: while a click is awaited it is the
    human's turn and nobody has three in a row; the program announces an
    AI win only with three ["X"] in a row and a draw only on a full board
    with no three in a row; the human never gets three in a row. *)
Theorem play_interactive_sound (ai_first : bool) (clicks : list nat) :
  Forall (λ i, (i < 9)%nat) clicks →
  match play_interactive ai_first clicks with
  | Next s => s.1.2 = O ∧ ¬ has_line s.1.1 X ∧ ¬ has_line s.1.1 O
  | Stop e => sound_ending e
  end.
Proof.
  intros Hin. unfold play_interactive, play_from. destruct ai_first; cbn [fst snd].
  - assert (ai_move (replicate 9 Empty) X O
            = Next (<[8%nat := Mark X]> (replicate 9 Empty), O, X)) as ->.
    { vm_compute. reflexivity. }
    apply (explore_clicks_sound 10); [done|]. vm_compute. reflexivity.
  - apply (explore_clicks_sound 10); [done|]. vm_compute. reflexivity.
Qed.

Lemma play_interactive_sound_witness :
  match play_interactive false [4; 4; 1; 6; 5; 0]%nat with
  | Next s => s.1.2 = O ∧ ¬ has_line s.1.1 X ∧ ¬ has_line s.1.1 O
  | Stop e => sound_ending e
  end.
Proof.
  apply (play_interactive_sound false). repeat (constructor; [lia|]).
  constructor.
Defined.

(** * The AI plays the value of the game *)

Lemma completes_insert_other b p q i k :
  completes b p i → b !! k = Some Empty → k ≠ i →
  completes (<[k := Mark q]> b) p i.
Proof.
  intros [Hi Hex] Hk Hne. split; [by rewrite list_lookup_insert_ne|].
  pose proof (lookup_lt_Some _ _ _ Hi) as Hlt.
  eapply Exists_impl; [done|]. simpl. intros l [Hil Hall]. split; [done|].
  eapply Forall_impl; [done|]. simpl. intros c Hc.
  destruct (decide (c = i)) as [->|Hci].
  - apply list_lookup_insert_eq. by rewrite length_insert.
  - rewrite list_lookup_insert_ne in Hc |- * by done.
    rewrite list_lookup_insert_ne; [done|]. intros ->. congruence.
Qed.

Lemma ai_turn_cases b :
  length b = 9%nat → cells_with Empty b ≠ [] →
  (∃ i b', ai_turn b = Stop (AIWins b')  ∧ completes b X i) ∨
  (∃ i, ai_turn b = Next (<[i := Mark X]> b) ∧ b !! i = Some Empty ∧
        (∀ j, ¬ completes b X j) ∧ completes b O i) ∨
  (∃ i s, ai_turn b = Next (<[i := Mark X]> b) ∧ b !! i = Some Empty ∧
          (∀ j, ¬ completes b X j) ∧ (∀ j, ¬ completes b O j) ∧
          minimax 10 b X O = Ret (Some i, s) ∧
          child_score 9 b X O i = Ret s).
Proof.
  intros Hb Hav. unfold ai_turn.
  destruct (check_player_win_total b X) as [res_x Hx]; [lia|].
  destruct (check_player_win_total b O) as [res_o Ho]; [lia|].
  rewrite Hx, Ho. cbn [run].
  destruct res_x as [[i s]|].
  { apply check_player_win_pair in Hx as (x & y & Hxy & Hline & Hpx & Hpy & Hi).
    left. exists i. rewrite setitem_Ret by (by eapply lookup_lt_Some).
    cbn [run]. eexists. split; [done|]. by eapply open_line_completes. }
  assert (∀ j, ¬ completes b X j) as HnoX.
  { intros j. by apply no_completes_of_None. }
  right. destruct res_o as [[i s]|]; cbn [run].
  { apply check_player_win_pair in Ho as (x & y & Hxy & Hline & Hpx & Hpy & Hi).
    left. exists i. rewrite setitem_Ret by (by eapply lookup_lt_Some).
    cbn [run]. do 3 (split; [done|]). by eapply open_line_completes. }
  right.
  destruct (minimax_enough_fuel 10 b X O) as [[mv s] Hrun];
    [lia | pose proof (length_cells_with Empty b); lia |].
  rewrite Hrun. cbn [mbind outcome_bind run fst].
  pose proof Hrun
    as [(i & Hwin & _)|[(_ & Hnil & _)|(_ & av & i & Hav' & Hi & -> & Hs)]]
    %minimax_Ret_cases.
  - congruence.
  - apply avail_moves_inv in Hnil as [Hnil _]. congruence.
  - apply avail_moves_inv in Hav' as [-> _].
    apply elem_of_cells_with in Hi as [Hi Hi9].
    exists i, s. rewrite setitem_Ret by lia. cbn [run].
    do 3 (split; [done|]). split; [|done].
    intros j. by apply no_completes_of_None.
Qed.

(** X13.  The AI's move keeps the value of the game.  On a board of nine
    cells with an empty cell and ["X"] to move: if ["X"] can force three
    in a row, the AI wins at once or moves to a board on which ["X"] can
    still force it; and if ["O"] cannot force three in a row, neither can
    it on the board the AI moves to. *)
Theorem ai_turn_keeps_value (b : list cell) :
  length b = 9%nat → cells_with Empty b ≠ [] →
  (forced_win X X b →
   (∃ b', ai_turn b = Stop (AIWins b')) ∨
   (∃ b', ai_turn b = Next b' ∧ forced_win X O b')) ∧
  (¬ forced_win O X b →
   ∀ b', ai_turn b = Next b' → ¬ forced_win O O b').
Proof.
  intros Hb Hav.
  destruct (ai_turn_cases b Hb Hav)
    as [(i & b' & -> & Hi)
       |[(i & -> & Hi & HnoX & HO)
        |(i & s & -> & Hi & HnoX & HnoO & Hrun & Hs)]].
  - split; [eauto | done].
  - split.
    + intros Hfw. right. eexists. split; [done|].
      inversion Hfw as [b0 k Hk|b0 k Hk Hfw'|]; subst; [by apply HnoX in Hk|].
      destruct (decide (k = i)) as [->|Hne]; [done|].
      inversion Hfw' as [| |b0 _ Hno _]; subst.
      destruct (Hno i). by apply completes_insert_other.
    + intros Hnot b' [= <-] Hfw. apply Hnot.
      apply (fw_reply O b); [eauto | done |].
      intros k Hk. destruct (decide (k = i)) as [->|Hne]; [done|].
      apply (fw_now O _ i). by apply completes_insert_other.
  - apply child_score_Ret in Hs as (_ & mv' & Hchild).
    pose proof (minimax_forced_win 10 b X O X _ _ eq_refl Hb Hrun) as HX.
    pose proof (minimax_forced_win 10 b X O O _ _ eq_refl Hb Hrun) as HO.
    pose proof (minimax_forced_win 9 _ O X X _ _ eq_refl
                  ltac:(by rewrite length_insert) Hchild) as HX'.
    pose proof (minimax_forced_win 9 _ O X O _ _ eq_refl
                  ltac:(by rewrite length_insert) Hchild) as HO'.
    split.
    + intros Hfw. right. eexists. split; [done|]. apply HX', HX, Hfw.
    + intros Hnot b' [= <-] Hfw. apply Hnot, HO, HO', Hfw.
Qed.

Lemma ai_turn_keeps_value_witness :
  let b1 := [Mark X; Empty; Mark O; Empty; Empty; Empty; Empty; Empty; Empty] in
  let b2 := [Mark X; Empty; Empty; Empty; Mark O; Empty; Empty; Empty; Empty] in
  (∃ b', ai_turn b1 = Next b' ∧ forced_win X O b') ∧
  (∃ b', ai_turn b2 = Next b' ∧ ¬ forced_win O O b').
Proof.
  intros b1 b2. split.
  - destruct (ai_turn_keeps_value b1) as [Hkeep _];
      [reflexivity | by vm_compute |].
    destruct Hkeep as [[b' Hwin]|Hnext]; [|by vm_compute in Hwin|done].
    apply (minimax_forced_win 10 b1 X O X (Some 8%nat) 1);
      [reflexivity | reflexivity | by vm_compute | reflexivity].
  - destruct (ai_turn_keeps_value b2) as [_ Hkeep];
      [reflexivity | by vm_compute |].
    eexists. split; [by vm_compute|]. apply Hkeep; [|by vm_compute].
    intros Hfw.
    by apply (minimax_forced_win 10 b2 X O O (Some 8%nat) 0) in Hfw;
      [|reflexivity | reflexivity | by vm_compute].
Defined.

(** * Which cell [check_player_win] returns *)

Lemma combinations2_sorted l :
  StronglySorted lt l →
  StronglySorted pair_before (combinations2 l) ∧
  Forall (λ t : nat * nat, (t.1 < t.2)%nat) (combinations2 l).
Proof.
  induction 1 as [|x l Hl [IH1 IH2] Hx]; [by repeat constructor|].
  cbn [combinations2]. rewrite Forall_forall in Hx. split.
  - apply StronglySorted_app_2.
    + intros t u (y & -> & Hy)%list_elem_of_fmap Hu.
      destruct u as [u1 u2]. apply combinations2_elem_of in Hu as [Hu1 _].
      left. simpl. by apply Hx.
    + clear IH1 IH2 Hx. induction Hl as [|y l Hl IH Hy]; [constructor|].
      simpl. constructor; [done|].
      rewrite Forall_forall in Hy. apply Forall_forall.
      intros t (z & -> & Hz)%list_elem_of_fmap. right. simpl. auto.
    + done.
  - apply Forall_app. split; [|done].
    apply Forall_forall. intros t (y & -> & Hy)%list_elem_of_fmap. simpl. auto.
Qed.

Lemma scan_pairs_first am p pairs i s :
  Forall (λ t : nat * nat, (t.1 < 9)%nat ∧ (t.2 < 9)%nat) pairs →
  scan_pairs am p pairs = Ret (Some (i, s)) →
  ∃ l1 t l2, pairs = l1 ++ t :: l2 ∧
    Forall (λ u, 15 - (magic_of u.1 + magic_of u.2) ∉ am) l1 ∧
    15 - (magic_of t.1 + magic_of t.2) ∈ am ∧
    magic_ !! (15 - (magic_of t.1 + magic_of t.2)) = Some i.
Proof.
  induction 1 as [|t rest Ht _ IH]; [done|].
  rewrite scan_pairs_cons by done. case_bool_decide as Hhit.
  - unfold dict_get. destruct (magic_ !! _) as [i'|] eqn:Hi; [|done].
    simpl. intros [= <- <-]. exists [], t, rest. by repeat split.
  - intros (l1 & u & l2 & -> & Hl1 & Hu & Hi)%IH.
    exists (t :: l1), u, l2. repeat split; [|done..]. by constructor.
Qed.

(** X14.  [check_player_win] answers for the first pair in the order of
    [combinations]: the cell it returns fills a line with two cells
    [x < y] of the player, and every other pair of the player's cells
    that an empty cell would complete comes later in that order. *)
Theorem check_player_win_first_pair (b : list cell) (p : mark) (i : nat) (s : Z) :
  check_player_win b p = Ret (Some (i, s)) →
  ∃ x y, (x < y)%nat ∧
    b !! x = Some (Mark p) ∧ b !! y = Some (Mark p) ∧
    b !! i = Some Empty ∧ on_common_line x y i ∧
    ∀ x' y' z, (x' < y')%nat → (y' < 9)%nat →
      b !! x' = Some (Mark p) → b !! y' = Some (Mark p) →
      b !! z = Some Empty → on_common_line x' y' z →
      (x', y') = (x, y) ∨ pair_before (x, y) (x', y').
Proof.
  destruct (decide (length b < 9)%nat) as [Hb|Hb].
  { by rewrite check_player_win_short. }
  rewrite check_player_win_unfold by lia.
  intros (l1 & [x y] & l2 & Hsplit & Hmiss & Hhit & Hi)%scan_pairs_first;
    [|apply pairs_in_range].
  destruct (combinations2_sorted (cells_with (Mark p) b)) as [Hsorted Hlt];
    [apply cells_with_sorted|].
  assert ((x, y) ∈ combinations2 (cells_with (Mark p) b)) as Hin.
  { rewrite Hsplit. apply elem_of_app. right. left. }
  rewrite Forall_forall in Hlt. pose proof (Hlt _ Hin) as Hxy.
  pose proof Hin as [Hx Hy]%combinations2_elem_of.
  apply elem_of_cells_with in Hx as [Hx Hx9], Hy as [Hy Hy9]. simpl in *.
  destruct (hit_open_line b p x y) as (z & Hz & Hz9 & Hline & Heq);
    [done | done | lia | done..|].
  rewrite <- Heq, magic_round_trip in Hi by done. injection Hi as <-.
  exists x, y. do 5 (split; [done|]).
  intros x' y' z' Hlt' Hy9' Hx' Hy' Hz' Hline'.
  assert ((x', y') ∈ combinations2 (cells_with (Mark p) b)) as Hin'.
  { destruct (combinations2_complete (cells_with (Mark p) b) x' y')
      as [?|Hbad]; [apply elem_of_cells_with; split; [done|lia]..
                   | lia | done |].
    apply Hlt in Hbad. simpl in Hbad. lia. }
  assert (15 - (magic_of x' + magic_of y') ∈ magic_of <$> cells_with Empty b)
    as Hhit'.
  { destruct (on_common_line_lt _ _ _ Hline') as (? & ? & ?).
    eapply open_line_hit; [done..|lia|done]. }
  rewrite Hsplit in Hin', Hsorted.
  apply elem_of_app in Hin' as [Hin'|Hin'].
  { rewrite Forall_forall in Hmiss. by apply Hmiss in Hin'. }
  apply elem_of_cons in Hin' as [?|Hin']; [by left|]. right.
  apply StronglySorted_app_1_r, StronglySorted_cons in Hsorted as [Hafter _].
  rewrite Forall_forall in Hafter. by apply Hafter.
Qed.

Lemma check_player_win_first_pair_witness :
  let b := [Mark O; Mark O; Empty; Mark O; Mark X; Mark X; Empty; Empty; Mark X] in
  ∃ x y, (x < y)%nat ∧
    b !! x = Some (Mark O) ∧ b !! y = Some (Mark O) ∧
    b !! 2%nat = Some Empty ∧ on_common_line x y 2 ∧
    ∀ x' y' z, (x' < y')%nat → (y' < 9)%nat →
      b !! x' = Some (Mark O) → b !! y' = Some (Mark O) →
      b !! z = Some Empty → on_common_line x' y' z →
      (x', y') = (x, y) ∨ pair_before (x, y) (x', y').
Proof.
  intros b. apply (check_player_win_first_pair b O 2 (-1)). reflexivity.
Defined.

(** * The printed board *)




